(** * Adaptive hierarchical fitting: refinement selection of [gsHFitting]

    A shallow embedding of [src/gsHSplines/gsHFitting.h] (G+Smo).  The class
    [gsHFitting<d,T>] turns the point-wise error field of a least-squares fit
    into refinement boxes of a hierarchical spline basis.

    Conventions of the embedding.
    - [T] is [double].  Its values are modelled by rationals extended with
      +infinity (NaN and -infinity are left out), so comparisons are exact;
      the one place where the source computes in [T], the rank of
      [setRefineThreshold], rounds every operation to binary64 ([roundT]).
    - [unsigned] is a [Z] in [0, 2^32) and every unsigned operation of the
      source is followed by its wrap-around [wrap].
    - [int] (levels, loop budgets) is a [Z]; signed overflow is undefined in
      the source and no level comes near it.
    - A read outside a vector is undefined behaviour; where the source can
      reach one with inputs its own assertions accept, the function returns
      [option] and [None] stands for that read.
    - The hierarchical basis and the least-squares solver are collaborators
      outside this file of the repository: they are interfaces here
      (classes [HTensorBasis] and [Fitting]). *)

From Stdlib Require Import ZArith QArith Qcanon Qround Lia Lqa.
From stdpp Require Import base tactics option list numbers sorting.

Local Open Scope Z_scope.

(** ** The coefficient type [T] *)

Inductive T : Type :=
| Fin (q : Qc)
| PInf.

(** [a <= b] on [T]. *)
Definition Tleb (a b : T) : bool :=
  match a, b with
  | _, PInf => true
  | PInf, Fin _ => false
  | Fin x, Fin y => Qle_bool x y
  end.

(** [a < b] on [T]; without NaN it is the complement of [b <= a]. *)
Definition Tltb (a b : T) : bool := negb (Tleb b a).

Definition Tle (a b : T) : Prop := Tleb a b = true.

Definition T0 : T := Fin (Q2Qc 0).

(** ** [unsigned] *)

Definition wrap (z : Z) : Z := z mod 2 ^ 32.

Definition is_unsigned (z : Z) : Prop := 0 <= z < 2 ^ 32.

(** ** Collaborators *)

(** The part of [gsHTensorBasis<d,T>] / [gsTHBSplineBasis<d,T>] that
    [gsHFitting] calls.
    - [maxLevel b] is [basis->maxLevel()];
    - [uIndex b lvl dim u] is
      [basis->getBases()[lvl]->component(dim).knots().uFind(u).uIndex()];
    - [query3 b low upp lvl] is [basis->tree().query3(low, upp, lvl)];
    - [numBreaks b lvl dim] is [basis->numBreaks(lvl, dim)];
    - [refineElements b boxes] is the basis after [basis->refineElements(boxes)]. *)
Class HTensorBasis (B : Type) := {
  maxLevel : B → Z;
  uIndex : B → Z → nat → T → Z;
  query3 : B → list Z → list Z → Z → Z;
  numBreaks : B → Z → nat → Z;
  refineElements : B → list Z → B
}.

(** The part of [gsFitting<T>] that [gsHFitting] calls: [compute b lambda] is
    the result of [this->compute(lambda)] over the basis [b], and
    [computeErrors r] is what [this->computeErrors()] stores in
    [m_pointErrors], [m_max_error] and [m_min_error]. *)
Class Fitting (B R : Type) := {
  compute : B → T → R;
  computeErrors : R → list T * T * T
}.

(** [std::nth_element(first, first + i, last)] with its contract from the C++
    standard: the range is permuted, the element at [i] is not below any
    element before it and not above any element after it. *)
Class NthElement := {
  nth_element : list T → nat → list T;
  nth_element_perm : ∀ l i, (i ≤ length l)%nat → nth_element l i ≡ₚ l;
  nth_element_before : ∀ l i j x y, (j < i)%nat →
    nth_element l i !! i = Some x → nth_element l i !! j = Some y → Tle y x;
  nth_element_after : ∀ l i j x y, (i < j)%nat →
    nth_element l i !! i = Some x → nth_element l i !! j = Some y → Tle x y
}.

(** ** Static helpers of the class *)

(** [append(boxes, box)]: push the entries of [box] one by one. *)
Definition append (boxes box : list Z) : list Z :=
  foldl (λ acc col, acc ++ [default 0 (box !! col)]) boxes (seq 0 (length box)).

(** The inner loop of [isCellAlreadyInserted]: the number of columns on which
    the stored cell starting at [i] agrees with [a_cell]. *)
Definition commonEntries (a_cell cells : list Z) (i : nat) : nat :=
  foldl (λ n col, if decide (cells !! (i + col)%nat = a_cell !! col) then S n else n)
        0%nat (seq 0 (length a_cell)).

(** The outer loop [for (i = 0; i != cells.size(); i += a_cell.rows())]. *)
Fixpoint isCellAlreadyInserted_from (fuel i : nat) (a_cell cells : list Z) : bool :=
  match fuel with
  | O => false
  | S fuel' =>
      if decide (i = length cells) then false
      else if decide (commonEntries a_cell cells i = length a_cell) then true
      else isCellAlreadyInserted_from fuel' (i + length a_cell) a_cell cells
  end.

Definition isCellAlreadyInserted (a_cell cells : list Z) : bool :=
  isCellAlreadyInserted_from (S (length cells)) 0 a_cell cells.

(** ** The box builder *)

(** The cell index reprojected from the finest level to [cell_lvl]
    (lines 306-316 of the source); [shift] is an [unsigned].  The C++ shifts
    have a value for counts below 32 only, and two levels 32 or more apart
    are beyond what a 32-bit cell index addresses.  For such counts the
    definition takes what the shift instructions of x86 give, the count
    modulo 32; what is proved of the shifted value is stated for counts
    below 32. *)
Definition lowIndex (cell_lvl maxLvl a : Z) : Z :=
  if cell_lvl <? maxLvl then Z.shiftr a (wrap (maxLvl - cell_lvl) mod 32)
  else wrap (Z.shiftl a (wrap (cell_lvl - maxLvl) mod 32)).

(** The extension and clamping of lines 319-321. *)
Definition lowBound (idx ext : Z) : Z :=
  if ext <? idx then wrap (idx - ext) else 0.

Definition uppBound (idx ext numBreaks : Z) : Z :=
  if wrap (idx + ext + 1) <? numBreaks then wrap (idx + ext + 1) else numBreaks.

Section BoxBuilder.
Context (d : nat) {B : Type} `{!HTensorBasis B}.

(** The cell locator at the head of [appendBox]. *)
Definition locate (basis : B) (parameter : nat → T) : list Z :=
  (λ dim, wrap (uIndex basis (maxLevel basis) dim (parameter dim))) <$> seq 0 d.

(** [cell_lvl] of [appendBox]. *)
Definition cellLevel (basis : B) (a_cell : list Z) : Z :=
  query3 basis a_cell ((λ x, wrap (x + 1)) <$> a_cell) (maxLevel basis) + 1.

(** One round of the loop over [dim] that fills the box. *)
Definition fillDim (basis : B) (m_ext a_cell : list Z) (cell_lvl : Z)
    (box : list Z) (dim : nat) : list Z :=
  let nb := wrap (numBreaks basis cell_lvl dim - 1) in
  let idx := lowIndex cell_lvl (maxLevel basis) (default 0 (a_cell !! dim)) in
  let ext := default 0 (m_ext !! dim) in
  <[(1 + d + dim)%nat := uppBound idx ext nb]> (<[(1 + dim)%nat := lowBound idx ext]> box).

(** The box of a cell: [gsVector<unsigned> box(2 * d + 1)] filled in place. *)
Definition makeBox (basis : B) (m_ext a_cell : list Z) : list Z :=
  let cell_lvl := cellLevel basis a_cell in
  foldl (fillDim basis m_ext a_cell cell_lvl)
        (<[0%nat := wrap cell_lvl]> (replicate (2 * d + 1) 0))
        (seq 0 d).

(** [appendBox(boxes, cells, parameter)]; the two vectors passed by reference
    are returned. *)
Definition appendBox (basis : B) (m_ext : list Z) (boxes cells : list Z)
    (parameter : nat → T) : list Z * list Z :=
  let a_cell := locate basis parameter in
  if isCellAlreadyInserted a_cell cells then (boxes, cells)
  else
    let cells' := append cells a_cell in
    (append boxes (makeBox basis m_ext a_cell), cells').

(** [getBoxes(errors, threshold)]; [m_param_values index dim] is entry [dim]
    of [m_param_values.col(index)]. *)
Definition getBoxes (basis : B) (m_ext : list Z) (m_param_values : nat → nat → T)
    (errors : list T) (threshold : T) : list Z :=
  fst (foldl (λ bc index,
                match errors !! index with
                | Some e =>
                    if Tleb threshold e
                    then appendBox basis m_ext bc.1 bc.2 (m_param_values index)
                    else bc
                | None => bc
                end)
             ([], []) (seq 0 (length errors))).

End BoxBuilder.

(** ** The threshold selector *)

(** *** Arithmetic of [T]

    [floor (log2 q)] for a positive [q]. *)
Definition expoQ (q : Q) : Z :=
  if Qle_bool 1 q then Z.log2 (Qfloor q) else - Z.log2_up (Qceiling (/ q)).

(** The number of binary digits after the point of the doubles around [q]:
    53 significant digits from the exponent of [q] down, the exponent not
    below -1022 (subnormal numbers).  The count is not taken below 0: for a
    percentage in [0, 1] the values rounded in this file are at most the size
    of a vector of doubles, which is below [2^53], where the spacing of
    doubles is at most 1 and the size itself is a double. *)
Definition fracBits (q : Q) : Z := 52 - Z.min (Z.max (expoQ q) (-1022)) 52.

(** Rounding to the nearest integer, ties to even. *)
Definition rne (m : Q) : Z :=
  let f := Qfloor m in
  match (m - inject_Z f ?= 1 # 2)%Q with
  | Lt => f
  | Gt => f + 1
  | Eq => if Z.even f then f else f + 1
  end.

Definition roundPos (q : Q) : Q :=
  let s := 2 ^ fracBits q in
  Qred (rne (q * inject_Z s) # Z.to_pos s).

(** The double nearest to [q], ties to even: the result of an operation of
    [T] whose exact value is [q].  Overflow to an infinity is left out: it
    needs a percentage far outside [0, 1], for which the rank is outside the
    field with or without it. *)
Definition roundT (q : Q) : Q :=
  let q' := Qred q in
  if Qle_bool 0 q' then roundPos q' else (- roundPos (- q'))%Q.

(** [cast<T,std::size_t>(x)]: truncation towards zero; a value that
    truncates below zero has no [size_t]. *)
Definition castSize (x : Q) : option nat :=
  let z := if Qle_bool 0 x then Qfloor x else Qceiling x in
  if 0 <=? z then Some (Z.to_nat z) else None.

(** [errorsCopy.size() * (1.0 - m_ref)] cast to [size_t]: the difference is
    rounded, then the product with the size (converted exactly, see
    [fracBits]) is rounded, then the cast truncates. *)
Definition rankIndex (m_ref : T) (size : nat) : option nat :=
  match m_ref with
  | Fin p => castSize (roundT (inject_Z (Z.of_nat size) * roundT (1 - p)))
  | PInf => None
  end.

(** [setRefineThreshold(errors)]: [None] is the read of [*pos] with [pos]
    outside [errorsCopy.begin(), errorsCopy.end())]. *)
Definition setRefineThreshold `{!NthElement} (m_ref : T) (errors : list T) : option T :=
  i ← rankIndex m_ref (length errors);
  if decide (i ≤ length errors)%nat then nth_element errors i !! i else None.

(** ** The refinement driver *)

(** The calls an iteration makes, in order. *)
Inductive call : Type :=
| CallCompute (lambda : T)
| CallComputeErrors
| CallSetRefineThreshold
| CallGetBoxes (threshold : T)
| CallRefineElements (boxes : list Z).

Section Driver.
Context (d : nat) {B R : Type} `{!HTensorBasis B} `{!Fitting B R} `{!NthElement}.

(** The members of [gsHFitting<d,T>] (and those it inherits from [gsFitting<T>]);
    [calls] is the log of the calls made so far. *)
Record gsHFitting : Type := mkHFitting {
  m_ref : T;
  m_lambda : T;
  m_ext : list Z;
  m_param_values : nat → nat → T;
  m_basis : B;
  m_result : option R;
  m_pointErrors : list T;
  m_max_error : T;
  m_min_error : T;
  calls : list call
}.

(** What the constructor asserts about its arguments. *)
Definition validConfig (refin : T) (extension : list Z) : Prop :=
  Tle T0 refin ∧ Tle refin (Fin (Q2Qc 1)) ∧ length extension = d ∧
  Forall is_unsigned extension.

(** The main constructor. *)
Definition construct (param_values : nat → nat → T) (basis : B) (refin : T)
    (extension : list Z) (lambda : T) : gsHFitting :=
  {| m_ref := refin; m_lambda := lambda; m_ext := extension;
     m_param_values := param_values; m_basis := basis; m_result := None;
     m_pointErrors := []; m_max_error := T0; m_min_error := T0; calls := [] |}.

Definition logCall (c : call) (st : gsHFitting) : gsHFitting :=
  {| m_ref := m_ref st; m_lambda := m_lambda st; m_ext := m_ext st;
     m_param_values := m_param_values st; m_basis := m_basis st;
     m_result := m_result st; m_pointErrors := m_pointErrors st;
     m_max_error := m_max_error st; m_min_error := m_min_error st;
     calls := calls st ++ [c] |}.

(** [this->compute(m_lambda)]. *)
Definition doCompute (st : gsHFitting) : gsHFitting :=
  logCall (CallCompute (m_lambda st))
  {| m_ref := m_ref st; m_lambda := m_lambda st; m_ext := m_ext st;
     m_param_values := m_param_values st; m_basis := m_basis st;
     m_result := Some (compute (m_basis st) (m_lambda st));
     m_pointErrors := m_pointErrors st;
     m_max_error := m_max_error st; m_min_error := m_min_error st;
     calls := calls st |}.

(** [this->computeErrors()]; a fit always precedes it. *)
Definition doComputeErrors (st : gsHFitting) : gsHFitting :=
  match m_result st with
  | Some r =>
      let '(errs, emax, emin) := computeErrors r in
      logCall CallComputeErrors
      {| m_ref := m_ref st; m_lambda := m_lambda st; m_ext := m_ext st;
         m_param_values := m_param_values st; m_basis := m_basis st;
         m_result := m_result st; m_pointErrors := errs;
         m_max_error := emax; m_min_error := emin; calls := calls st |}
  | None => logCall CallComputeErrors st
  end.

(** [basis->refineElements(boxes)]. *)
Definition doRefine (boxes : list Z) (st : gsHFitting) : gsHFitting :=
  logCall (CallRefineElements boxes)
  {| m_ref := m_ref st; m_lambda := m_lambda st; m_ext := m_ext st;
     m_param_values := m_param_values st;
     m_basis := refineElements (m_basis st) boxes;
     m_result := m_result st; m_pointErrors := m_pointErrors st;
     m_max_error := m_max_error st; m_min_error := m_min_error st;
     calls := calls st |}.

(** The two statements that end [nextIteration] and open [iterativeRefine]. *)
Definition fitAndMeasure (st : gsHFitting) : gsHFitting :=
  doComputeErrors (doCompute st).

(** [(err_threshold >= 0) ? err_threshold : setRefineThreshold(m_pointErrors)]. *)
Definition selectThreshold (err_threshold : T) (st : gsHFitting)
    : option (T * gsHFitting) :=
  if Tleb T0 err_threshold then Some (err_threshold, st)
  else
    t ← setRefineThreshold (m_ref st) (m_pointErrors st);
    Some (t, logCall CallSetRefineThreshold st).

(** [getBoxes] called on the object. *)
Definition stBoxes (st : gsHFitting) (errors : list T) (threshold : T) : list Z :=
  getBoxes d (m_basis st) (m_ext st) (m_param_values st) errors threshold.

(** [nextIteration(tolerance, err_threshold)]: the returned flag and the
    object afterwards. *)
Definition nextIteration (tolerance err_threshold : T) (st : gsHFitting)
    : option (bool * gsHFitting) :=
  if decide (length (m_pointErrors st) ≠ 0%nat) then
    if Tltb tolerance (m_max_error st) then
      '(threshold, st1) ← selectThreshold err_threshold st;
      let boxes := stBoxes st1 (m_pointErrors st1) threshold in
      let st2 := logCall (CallGetBoxes threshold) st1 in
      if decide (length boxes = 0%nat) then Some (false, st2)
      else Some (true, fitAndMeasure (doRefine boxes st2))
    else Some (false, st)
  else Some (true, fitAndMeasure st).

(** The [for] loop of [iterativeRefine], [n] rounds left. *)
Fixpoint refineLoop (n : nat) (tolerance err_threshold : T) (st : gsHFitting)
    : option gsHFitting :=
  match n with
  | O => Some st
  | S n' =>
      '(newIteration, st') ← nextIteration tolerance err_threshold st;
      if Tleb (m_max_error st') tolerance then Some st'
      else if negb newIteration then Some st'
      else refineLoop n' tolerance err_threshold st'
  end.

(** [iterativeRefine(numIterations, tolerance, err_threshold)]. *)
Definition iterativeRefine (numIterations : Z) (tolerance err_threshold : T)
    (st : gsHFitting) : option gsHFitting :=
  let st0 := if decide (length (m_pointErrors st) = 0%nat)
             then fitAndMeasure st else st in
  refineLoop (Z.to_nat numIterations) tolerance err_threshold st0.

(** [getRefPercentage()] and [get_extension()]. *)
Definition getRefPercentage (st : gsHFitting) : T := m_ref st.

Definition get_extension (st : gsHFitting) : list Z := m_ext st.

(** The main constructor with its assertions switched on: [None] is the
    failed [GISMO_ASSERT].  The third assertion ([extension >= 0] on
    [unsigned] entries) cannot fail. *)
Definition constructAsserted (param_values : nat → nat → T) (basis : B) (refin : T)
    (extension : list Z) (lambda : T) : option gsHFitting :=
  if Tleb T0 refin && Tleb refin (Fin (Q2Qc 1)) then
    if decide (length extension = d)
    then Some (construct param_values basis refin extension lambda)
    else None
  else None.

(** [setRefPercentage(refPercent)] with its assertion switched on. *)
Definition setRefPercentage (refPercent : T) (st : gsHFitting) : option gsHFitting :=
  if Tleb T0 refPercent && Tleb refPercent (Fin (Q2Qc 1)) then
    Some {| m_ref := refPercent; m_lambda := m_lambda st; m_ext := m_ext st;
            m_param_values := m_param_values st; m_basis := m_basis st;
            m_result := m_result st; m_pointErrors := m_pointErrors st;
            m_max_error := m_max_error st; m_min_error := m_min_error st;
            calls := calls st |}
  else None.

End Driver.

(** * The vocabulary of the claims

    The definitions below are not code of the repository: they word what the
    specification says about the code, and the properties compare them with
    the functions above. *)

(** The samples whose error reaches the threshold, in sample order. *)
Fixpoint flaggedFrom (i : nat) (errors : list T) (threshold : T) : list nat :=
  match errors with
  | [] => []
  | e :: es =>
      if Tleb threshold e then i :: flaggedFrom (S i) es threshold
      else flaggedFrom (S i) es threshold
  end.

Definition flagged (errors : list T) (threshold : T) : list nat :=
  flaggedFrom 0 errors threshold.

(** The cells of a list that were not met before, in order of first
    occurrence; [seen] holds the cells met so far. *)
Fixpoint keepNew (seen l : list (list Z)) : list (list Z) :=
  match l with
  | [] => []
  | c :: l' =>
      if bool_decide (c ∈ seen) then keepNew seen l'
      else c :: keepNew (seen ++ [c]) l'
  end.

(** The records of a flat vector, [n] entries each. *)
Fixpoint chunksFuel (fuel n : nat) (flat : list Z) : list (list Z) :=
  match fuel with
  | O => []
  | S fuel' =>
      match flat with
      | [] => []
      | _ :: _ => take n flat :: chunksFuel fuel' n (drop n flat)
      end
  end.

(** The boxes of the vector returned by [getBoxes]: [boxes.size() / (2 * d + 1)]
    records of [2 * d + 1] entries, as [nextIteration] counts them. *)
Definition boxesOf (d : nat) (flat : list Z) : list (list Z) :=
  chunksFuel (length flat) (2 * d + 1) flat.


Section BoxVocabulary.
Context (d : nat) {B : Type} `{!HTensorBasis B}.

(** The entries of a box as the specification words them: the index of the
    cell at the resolved level, the largest upper index of that level, and
    the two clamped bounds. *)
Definition indexAtLevel (basis : B) (a_cell : list Z) (dim : nat) : Z :=
  lowIndex (cellLevel basis a_cell) (maxLevel basis) (default 0 (a_cell !! dim)).

Definition maxUpper (basis : B) (a_cell : list Z) (dim : nat) : Z :=
  wrap (numBreaks basis (cellLevel basis a_cell) dim - 1).

Definition boxLow (basis : B) (m_ext a_cell : list Z) (dim : nat) : Z :=
  lowBound (indexAtLevel basis a_cell dim) (default 0 (m_ext !! dim)).

Definition boxUpp (basis : B) (m_ext a_cell : list Z) (dim : nat) : Z :=
  uppBound (indexAtLevel basis a_cell dim) (default 0 (m_ext !! dim))
           (maxUpper basis a_cell dim).

(** The flat record: level, lower bounds, upper bounds. *)
Definition boxRecord (basis : B) (m_ext a_cell : list Z) : list Z :=
  wrap (cellLevel basis a_cell)
  :: (boxLow basis m_ext a_cell <$> seq 0 d) ++ (boxUpp basis m_ext a_cell <$> seq 0 d).

(** The finest-level cell of sample [index]. *)
Definition cellOf (basis : B) (m_param_values : nat → nat → T) (index : nat)
    : list Z :=
  locate d basis (m_param_values index).

(** One call of [appendBox] from the loop of [getBoxes]. *)
Definition scanStep (basis : B) (m_ext : list Z) (m_param_values : nat → nat → T)
    (bc : list Z * list Z) (index : nat) : list Z * list Z :=
  appendBox d basis m_ext bc.1 bc.2 (m_param_values index).

(** The cells that get a box in a scan of the samples [idxs], by the
    membership test of the source; [cells] is the flat vector of the cells
    stored before the scan. *)
Fixpoint keptCells (basis : B) (m_param_values : nat → nat → T)
    (idxs : list nat) (cells : list Z) : list (list Z) :=
  match idxs with
  | [] => []
  | index :: idxs' =>
      let c := cellOf basis m_param_values index in
      if isCellAlreadyInserted c cells
      then keptCells basis m_param_values idxs' cells
      else c :: keptCells basis m_param_values idxs' (cells ++ c)
  end.






End BoxVocabulary.

(** The rank of the selected element as the specification states it, in
    exact arithmetic: [floor (N (1 - p))]. *)
Definition rankOf (p : Qc) (size : nat) : nat :=
  Z.to_nat (Qfloor (inject_Z (Z.of_nat size) * (1 - p))).

(** The fits and the refinements among a sequence of calls. *)
Fixpoint countFits (cs : list call) : nat :=
  match cs with
  | [] => 0
  | CallCompute _ :: cs' => S (countFits cs')
  | _ :: cs' => countFits cs'
  end.

Fixpoint countRefines (cs : list call) : nat :=
  match cs with
  | [] => 0
  | CallRefineElements _ :: cs' => S (countRefines cs')
  | _ :: cs' => countRefines cs'
  end.

(** A call that only reads the object. *)
Definition isQuery (c : call) : Prop :=
  match c with
  | CallSetRefineThreshold | CallGetBoxes _ => True
  | _ => False
  end.

Section DriverVocabulary.
Context (d : nat) {B R : Type} `{!HTensorBasis B} `{!Fitting B R} `{!NthElement}.
Implicit Types (st : @gsHFitting B R) (tolerance err_threshold : T).

(** The calls made between two states of the object. *)
Definition callsSince st st' : list call := drop (length (calls st)) (calls st').

(** Nothing but the log differs. *)
Definition sameMembers st st' : Prop :=
  m_ref st' = m_ref st ∧ m_lambda st' = m_lambda st ∧ m_ext st' = m_ext st ∧
  m_param_values st' = m_param_values st ∧ m_basis st' = m_basis st ∧
  m_result st' = m_result st ∧ m_pointErrors st' = m_pointErrors st ∧
  m_max_error st' = m_max_error st ∧ m_min_error st' = m_min_error st.


(** The configuration of the object passes the assertions of the class. *)
Definition configValid st : Prop :=
  validConfig d (getRefPercentage st) (get_extension st).

(** The members that configure the object are those of [st]. *)
Definition sameConfig st st' : Prop :=
  m_ref st' = m_ref st ∧ m_lambda st' = m_lambda st ∧ m_ext st' = m_ext st ∧
  m_param_values st' = m_param_values st.

(** What a refinement call of the log was given: a non-empty vector of whole
    records. *)
Definition wholeBoxes (c : call) : Prop :=
  match c with
  | CallRefineElements boxes =>
      boxes ≠ [] ∧ ∃ k, length boxes = (k * (2 * d + 1))%nat
  | _ => True
  end.

(** The invariant that the source states above [iterativeRefine], made
    precise: the configuration is valid, no refinement is without its fit,
    and the stored result and errors are those of the current basis, or
    there was no fit and there is no error field. *)
Definition consistent st : Prop :=
  configValid st ∧
  (countRefines (calls st) ≤ countFits (calls st))%nat ∧
  match m_result st with
  | None => countFits (calls st) = 0%nat ∧ m_pointErrors st = []
  | Some r =>
      (0 < countFits (calls st))%nat ∧
      r = compute (m_basis st) (m_lambda st) ∧
      (m_pointErrors st, m_max_error st, m_min_error st) = computeErrors r
  end.

(** The objects a caller can get: built by the constructor, then passed
    through the public functions. *)
Inductive reachable : @gsHFitting B R → Prop :=
| reach_construct param_values basis refin extension lambda st :
    Forall is_unsigned extension →
    constructAsserted d param_values basis refin extension lambda = Some st →
    reachable st
| reach_setRefPercentage refPercent st st' :
    reachable st → setRefPercentage refPercent st = Some st' → reachable st'
| reach_nextIteration tolerance err_threshold st (b : bool) st' :
    reachable st →
    nextIteration d tolerance err_threshold st = Some (b, st') → reachable st'
| reach_iterativeRefine (numIterations : Z) tolerance err_threshold st st' :
    reachable st →
    iterativeRefine d numIterations tolerance err_threshold st = Some st' →
    reachable st'.

End DriverVocabulary.

(** ** A small concrete setting

    A uniformly refined dyadic basis over the unit cube, a solver whose error
    field depends on the refinement level only, and [nth_element] realised by
    a full sort.  The closed examples below run on it. *)

Module Toy.

(** [tb_max] is the finest level of the grid hierarchy, [tb_cell] the level
    every cell currently lives at. *)
Record toyBasis : Type := mkToy { tb_max : Z; tb_cell : Z }.

Definition toyIndex (lvl : Z) (u : T) : Z :=
  match u with
  | Fin q => Qfloor (q * inject_Z (2 ^ lvl))
  | PInf => 0
  end.

#[export] Instance toyHTensorBasis : HTensorBasis toyBasis := {|
  maxLevel b := tb_max b;
  uIndex b lvl dim u := toyIndex lvl u;
  query3 b low upp lvl := tb_cell b;
  numBreaks b lvl dim := 2 ^ lvl + 1;
  refineElements b boxes :=
    {| tb_max := Z.max (tb_max b) (tb_cell b + 1); tb_cell := tb_cell b + 1 |}
|}.

(** The rational [n / m] as a [T]. *)
Definition frac (n : Z) (m : positive) : T := Fin (Q2Qc (n # m)).

(** Two samples whose errors halve with every level. *)
#[export] Instance toyFitting : Fitting toyBasis Z := {|
  compute b lambda := tb_cell b;
  computeErrors r :=
    ([frac 1 (Z.to_pos (2 ^ r)); frac 1 (Z.to_pos (2 ^ (r + 2)))],
     frac 1 (Z.to_pos (2 ^ r)), frac 1 (Z.to_pos (2 ^ (r + 2))))
|}.

(** A solver over no samples at all. *)
Definition emptyFitting : Fitting toyBasis Z := {|
  compute b lambda := tb_cell b;
  computeErrors r := ([], T0, T0)
|}.

(** Sample [index] sits at [(2 index + 1) / 8] in every direction. *)
Definition toyParams (index dim : nat) : T :=
  frac (2 * Z.of_nat index + 1) 8.

(** Four samples at 1/8, 3/8, 5/8, 7/8; the second has a small error. *)
Definition toyErrors : list T := [frac 1 2; frac 1 4; frac 1 2; frac 1 2].

(** The object right after construction, and after a first fit. *)
Definition toyObject : @gsHFitting toyBasis Z :=
  construct toyParams (mkToy 2 0) (frac 1 2) [0] T0.

Definition toyFitted : @gsHFitting toyBasis Z := fitAndMeasure toyObject.

(** The same object built with a refinement percentage of 0, after its first
    fit. *)
Definition toyZero : @gsHFitting toyBasis Z :=
  fitAndMeasure (construct toyParams (mkToy 2 0) T0 [0] T0).

(** The doubles nearest to 0.1 and to 2^-60. *)
Definition tenth : T := Fin (Q2Qc (3602879701896397 # 36028797018963968)).

Definition tiny : T := Fin (Q2Qc (1 # 1152921504606846976)).

End Toy.

(** * Properties *)

(** ** Order on [T] *)

Lemma Tle_refl (a : T) : Tle a a.
Proof.
  destruct a as [x|]; [|reflexivity].
  apply Qle_bool_iff, Qle_refl.
Qed.

Lemma Tle_trans (a b c : T) : Tle a b → Tle b c → Tle a c.
Proof.
  unfold Tle. destruct a as [x|], b as [y|], c as [z|]; simpl; try done.
  rewrite !Qle_bool_iff. apply Qle_trans.
Qed.

Lemma Tle_total (a b : T) : Tle a b ∨ Tle b a.
Proof.
  unfold Tle. destruct a as [x|], b as [y|]; simpl; auto.
  rewrite !Qle_bool_iff.
  destruct (Qlt_le_dec x y) as [Hlt|Hle]; [left; by apply Qlt_le_weak|by right].
Qed.

Lemma Tle_antisym (a b : T) : Tle a b → Tle b a → a = b.
Proof.
  unfold Tle. destruct a as [x|], b as [y|]; simpl; try done.
  rewrite !Qle_bool_iff. intros H1 H2. f_equal.
  apply Qc_is_canon. by apply Qle_antisym.
Qed.

Lemma Tle_PInf (a : T) : Tle a PInf.
Proof. by destruct a. Qed.

Lemma Tltb_PInf (a : T) : Tltb PInf a = false.
Proof. unfold Tltb. by rewrite (Tle_PInf a). Qed.

Lemma Tltb_false_iff (a b : T) : Tltb a b = false ↔ Tle b a.
Proof. unfold Tltb, Tle. by destruct (Tleb b a). Qed.

Lemma Tltb_true_iff (a b : T) : Tltb a b = true ↔ ¬ Tle b a.
Proof. unfold Tltb, Tle. by destruct (Tleb b a). Qed.

#[export] Instance Tle_dec : RelDecision Tle.
Proof. intros a b. unfold Tle. apply _. Defined.

#[export] Instance Tle_transitive : Transitive Tle.
Proof. intros a b c. apply Tle_trans. Qed.

#[export] Instance Tle_total_inst : Total Tle.
Proof. intros a b. apply Tle_total. Qed.

(** ** [unsigned] arithmetic *)

Lemma wrap_range (z : Z) : is_unsigned (wrap z).
Proof. unfold is_unsigned, wrap. apply Z.mod_pos_bound. lia. Qed.

Lemma wrap_small (z : Z) : is_unsigned z → wrap z = z.
Proof. unfold is_unsigned, wrap. intros H. by apply Z.mod_small. Qed.

(** ** [append] is concatenation *)

Lemma append_app (boxes box : list Z) : append boxes box = boxes ++ box.
Proof.
  unfold append.
  assert (∀ k acc, (k ≤ length box)%nat →
    foldl (λ acc col, acc ++ [default 0 (box !! col)]) acc
          (seq (length box - k) k) = acc ++ drop (length box - k) box) as Hloop.
  { induction k as [|k IH]; intros acc Hk; simpl.
    - rewrite Nat.sub_0_r, drop_all. by rewrite app_nil_r.
    - replace (S (length box - S k)) with (length box - k)%nat by lia.
      rewrite IH by lia. rewrite <- app_assoc. f_equal. simpl.
      destruct (lookup_lt_is_Some_2 box (length box - S k)) as [x Hx]; [lia|].
      rewrite Hx. simpl.
      rewrite (drop_S _ _ _ Hx).
      by replace (S (length box - S k)) with (length box - k)%nat by lia. }
  specialize (Hloop (length box) boxes (le_n _)).
  by rewrite Nat.sub_diag in Hloop.
Qed.

(** ** The deduplicator *)

Section Dedup.

Lemma count_fold (P : nat → Prop) `{!∀ x, Decision (P x)} (l : list nat) (n0 : nat) :
  let r := foldl (λ n col, if decide (P col) then S n else n) n0 l in
  (n0 ≤ r ≤ n0 + length l)%nat ∧ (r = (n0 + length l)%nat ↔ Forall P l).
Proof.
  cbv zeta. revert n0. induction l as [|x l IH]; intros n0; simpl.
  - split; [lia|]. split; [constructor|lia].
  - destruct (decide (P x)) as [Hx|Hx].
    + destruct (IH (S n0)) as [Hb Hiff]. split; [lia|].
      rewrite Forall_cons. replace (n0 + S (length l))%nat with (S n0 + length l)%nat by lia.
      rewrite Hiff. tauto.
    + destruct (IH n0) as [Hb Hiff]. split; [lia|].
      rewrite Forall_cons. split; [lia|tauto].
Qed.

Lemma commonEntries_full (a_cell cells : list Z) (i : nat) :
  commonEntries a_cell cells i = length a_cell ↔
  ∀ col, (col < length a_cell)%nat → cells !! (i + col)%nat = a_cell !! col.
Proof.
  unfold commonEntries.
  destruct (count_fold (λ col, cells !! (i + col)%nat = a_cell !! col)
              (seq 0 (length a_cell)) 0) as [_ Hiff].
  rewrite length_seq in Hiff. simpl in Hiff. rewrite Hiff, Forall_forall.
  split.
  - intros H col Hcol. apply H, elem_of_seq. lia.
  - intros H col Hcol%elem_of_seq. apply H. lia.
Qed.

(** A stored cell is hit exactly when it is the cell looked for. *)
Lemma commonEntries_chunk (a_cell pre c rest : list Z) :
  length c = length a_cell →
  commonEntries a_cell (pre ++ c ++ rest) (length pre) = length a_cell ↔ c = a_cell.
Proof.
  intros Hlen. rewrite commonEntries_full. split.
  - intros H. apply list_eq. intros col.
    destruct (decide (col < length a_cell)%nat) as [Hcol|Hcol].
    + rewrite <- (H col Hcol).
      rewrite lookup_app_r by lia.
      replace (length pre + col - length pre)%nat with col by lia.
      by rewrite lookup_app_l by lia.
    + rewrite !lookup_ge_None_2; [done|lia..].
  - intros -> col Hcol.
    rewrite lookup_app_r by lia.
    replace (length pre + col - length pre)%nat with col by lia.
    by rewrite lookup_app_l by lia.
Qed.

Lemma isCellAlreadyInserted_from_spec (a_cell : list Z) (cs : list (list Z)) :
  (0 < length a_cell)%nat →
  Forall (λ c, length c = length a_cell) cs →
  ∀ pre fuel, (length cs < fuel)%nat →
    isCellAlreadyInserted_from fuel (length pre) a_cell (pre ++ concat cs)
    = bool_decide (a_cell ∈ cs).
Proof.
  intros Hd. induction 1 as [|c cs Hc Hcs IH]; intros pre fuel Hfuel.
  - destruct fuel as [|fuel]; [simpl in Hfuel; lia|].
    cbn [isCellAlreadyInserted_from concat].
    rewrite app_nil_r. rewrite decide_True by done.
    symmetry. apply bool_decide_eq_false_2. by intros ?%elem_of_nil.
  - destruct fuel as [|fuel]; [simpl in Hfuel; lia|].
    cbn [isCellAlreadyInserted_from concat length] in *.
    rewrite decide_False by (rewrite !length_app; lia).
    destruct (decide (commonEntries a_cell (pre ++ c ++ concat cs) (length pre)
                      = length a_cell)) as [Heq|Hne].
    + apply commonEntries_chunk in Heq; [|done]. subst c.
      symmetry. apply bool_decide_eq_true_2. by left.
    + rewrite commonEntries_chunk in Hne by done.
      specialize (IH (pre ++ c) fuel).
      rewrite length_app, Hc, <- app_assoc in IH. rewrite IH by lia.
      apply bool_decide_ext. rewrite elem_of_cons.
      split; [by right|intros [->|?]; done].
Qed.

Lemma length_concat_uniform {A : Type} (n : nat) (cs : list (list A)) :
  Forall (λ c, length c = n) cs → length (concat cs) = (length cs * n)%nat.
Proof.
  induction 1 as [|c cs Hc _ IH]; simpl; [done|].
  rewrite length_app. lia.
Qed.

(** With the cells stored so far being whole [d]-tuples, the membership test
    of the source is list membership. *)
Lemma isCellAlreadyInserted_spec (a_cell : list Z) (cs : list (list Z)) :
  (0 < length a_cell)%nat →
  Forall (λ c, length c = length a_cell) cs →
  isCellAlreadyInserted a_cell (concat cs) = bool_decide (a_cell ∈ cs).
Proof.
  intros Hd Hcs. unfold isCellAlreadyInserted.
  apply (isCellAlreadyInserted_from_spec a_cell cs Hd Hcs []).
  rewrite (length_concat_uniform _ _ Hcs). nia.
Qed.

(** Without columns nothing is ever found. *)
Lemma isCellAlreadyInserted_nil (cells : list Z) :
  isCellAlreadyInserted [] cells = bool_decide (cells ≠ []).
Proof.
  by destruct cells.
Qed.

End Dedup.

(** ** The layout of a box *)

Section BoxLayout.
Context (d : nat) {B : Type} `{!HTensorBasis B}.
Implicit Types (basis : B) (m_ext a_cell : list Z).

Lemma boxRecord_length basis m_ext a_cell :
  length (boxRecord d basis m_ext a_cell) = (2 * d + 1)%nat.
Proof.
  unfold boxRecord. simpl. rewrite length_app, !length_fmap, !length_seq. lia.
Qed.

Lemma fill_invariant basis m_ext a_cell (k : nat) :
  (k ≤ d)%nat →
  let box := foldl (fillDim d basis m_ext a_cell (cellLevel basis a_cell))
                   (<[0%nat := wrap (cellLevel basis a_cell)]> (replicate (2 * d + 1) 0))
                   (seq 0 k) in
  length box = (2 * d + 1)%nat ∧
  box !! 0%nat = Some (wrap (cellLevel basis a_cell)) ∧
  ∀ dim, (dim < k)%nat →
    box !! (1 + dim)%nat = Some (boxLow basis m_ext a_cell dim) ∧
    box !! (1 + d + dim)%nat = Some (boxUpp basis m_ext a_cell dim).
Proof.
  cbv zeta. induction k as [|k IH]; intros Hk.
  - cbn [seq foldl]. rewrite length_insert, length_replicate.
    split; [done|]. split; [|intros dim Hdim; lia].
    apply list_lookup_insert_eq. rewrite length_replicate. lia.
  - destruct IH as (Hlen & Hlvl & Hset); [lia|].
    rewrite seq_S, foldl_snoc. cbn [Nat.add].
    set (box := foldl _ _ (seq 0 k)) in *.
    unfold fillDim. cbv zeta. cbn [Nat.add].
    split; [by rewrite !length_insert|].
    split; [by rewrite !list_lookup_insert_ne by lia|].
    intros dim Hdim.
    destruct (decide (dim = k)) as [->|Hne].
    + split.
      * rewrite list_lookup_insert_ne by lia.
        apply list_lookup_insert_eq. lia.
      * apply list_lookup_insert_eq. rewrite length_insert. lia.
    + destruct (Hset dim) as [Hlo Hup]; [lia|].
      by rewrite !list_lookup_insert_ne by lia.
Qed.

(** The vector filled entry by entry is the record. *)
Lemma makeBox_record basis m_ext a_cell :
  makeBox d basis m_ext a_cell = boxRecord d basis m_ext a_cell.
Proof.
  destruct (fill_invariant basis m_ext a_cell d (le_n d)) as (Hlen & Hlvl & Hset).
  unfold makeBox. cbv zeta.
  set (box := foldl _ _ (seq 0 d)) in *.
  apply list_eq. intros i.
  destruct (decide (i = 0%nat)) as [->|Hi0]; [by rewrite Hlvl|].
  unfold boxRecord. rewrite lookup_cons_ne_0 by done.
  destruct (decide (i < 1 + d)%nat) as [Hlo|Hlo].
  - destruct (Hset (i - 1)%nat) as [Hl _]; [lia|].
    replace (1 + (i - 1))%nat with i in Hl by lia. rewrite Hl.
    rewrite lookup_app_l by (rewrite length_fmap, length_seq; lia).
    rewrite list_lookup_fmap, lookup_seq_lt by lia. simpl.
    by replace (i - 1)%nat with (pred i) by lia.
  - destruct (decide (i < 2 * d + 1)%nat) as [Hup|Hup].
    + destruct (Hset (i - 1 - d)%nat) as [_ Hu]; [lia|].
      replace (1 + d + (i - 1 - d))%nat with i in Hu by lia. rewrite Hu.
      rewrite lookup_app_r by (rewrite length_fmap, length_seq; lia).
      rewrite length_fmap, length_seq.
      rewrite list_lookup_fmap, lookup_seq_lt by lia. simpl.
      by replace (i - 1 - d)%nat with (pred i - d)%nat by lia.
    + rewrite !lookup_ge_None_2; [done| |lia].
      rewrite length_app, !length_fmap, !length_seq. lia.
Qed.

End BoxLayout.

(** ** The scan of [getBoxes] *)

Lemma flaggedFrom_spec (errors : list T) (threshold : T) (i index : nat) :
  index ∈ flaggedFrom i errors threshold ↔
  (i ≤ index)%nat ∧ ∃ e, errors !! (index - i)%nat = Some e ∧ Tle threshold e.
Proof.
  revert i. induction errors as [|e es IH]; intros i; simpl.
  - rewrite elem_of_nil. split; [done|]. by intros (_ & e & He & _).
  - assert (index ∈ flaggedFrom (S i) es threshold ↔
            (i < index)%nat ∧ ∃ e', (e :: es) !! (index - i)%nat = Some e'
                                   ∧ Tle threshold e') as Htail.
    { rewrite IH. split.
      - intros (Hle & e' & He' & Hthr). split; [lia|]. exists e'. split; [|done].
        replace (index - i)%nat with (S (index - S i)) by lia. done.
      - intros (Hlt & e' & He' & Hthr). split; [lia|]. exists e'. split; [|done].
        replace (index - i)%nat with (S (index - S i)) in He' by lia. done. }
    destruct (Tleb threshold e) eqn:Hthr.
    + rewrite elem_of_cons, Htail. split.
      * intros [->|[Hlt Hex]]; [|split; [lia|done]].
        split; [lia|]. exists e. by rewrite Nat.sub_diag.
      * intros (Hle & Hex). destruct (decide (index = i)) as [->|Hne]; [by left|].
        right. split; [lia|done].
    + rewrite Htail. split.
      * intros [Hlt Hex]. split; [lia|done].
      * intros (Hle & e' & He' & Hthr'). split; [|by exists e'].
        destruct (decide (index = i)) as [->|Hne]; [|lia].
        rewrite Nat.sub_diag in He'. simpl in He'. injection He' as <-.
        unfold Tle in Hthr'. congruence.
Qed.

Lemma flagged_spec (errors : list T) (threshold : T) (index : nat) :
  index ∈ flagged errors threshold ↔
  ∃ e, errors !! index = Some e ∧ Tle threshold e.
Proof.
  unfold flagged. rewrite flaggedFrom_spec, Nat.sub_0_r.
  split; [by intros [_ H]|]. intros H. split; [lia|done].
Qed.

Lemma flaggedFrom_sorted (errors : list T) (threshold : T) (i : nat) :
  StronglySorted lt (flaggedFrom i errors threshold).
Proof.
  revert i. induction errors as [|e es IH]; intros i; simpl; [constructor|].
  destruct (Tleb threshold e); [|apply IH].
  constructor; [apply IH|].
  apply Forall_forall. intros j Hj%flaggedFrom_spec. lia.
Qed.

Lemma keepNew_NoDup (seen l : list (list Z)) :
  NoDup seen → NoDup (seen ++ keepNew seen l).
Proof.
  revert seen. induction l as [|c l IH]; intros seen Hseen; simpl.
  - by rewrite app_nil_r.
  - case_bool_decide as Hc; [by apply IH|].
    replace (seen ++ c :: keepNew (seen ++ [c]) l)
      with ((seen ++ [c]) ++ keepNew (seen ++ [c]) l) by (by rewrite <- app_assoc).
    apply IH. apply NoDup_app. split; [done|]. split.
    + intros x Hx ->%list_elem_of_singleton. done.
    + apply NoDup_singleton.
Qed.

Lemma keepNew_elem_of (seen l : list (list Z)) (c : list Z) :
  c ∈ seen ++ keepNew seen l ↔ c ∈ seen ∨ c ∈ l.
Proof.
  revert seen. induction l as [|x l IH]; intros seen; simpl.
  - rewrite app_nil_r, elem_of_nil. tauto.
  - case_bool_decide as Hx.
    + rewrite IH, elem_of_cons. split; [tauto|]. intros [?|[->|?]]; tauto.
    + replace (seen ++ x :: keepNew (seen ++ [x]) l)
        with ((seen ++ [x]) ++ keepNew (seen ++ [x]) l) by (by rewrite <- app_assoc).
      rewrite IH, elem_of_app, list_elem_of_singleton, elem_of_cons. tauto.
Qed.

Lemma keepNew_nil_elem_of (l : list (list Z)) (c : list Z) :
  c ∈ keepNew [] l ↔ c ∈ l.
Proof.
  pose proof (keepNew_elem_of [] l c) as H. simpl in H.
  rewrite H, elem_of_nil. tauto.
Qed.

Lemma keepNew_nil_NoDup (l : list (list Z)) : NoDup (keepNew [] l).
Proof. apply (keepNew_NoDup [] l), NoDup_nil_2. Qed.

Lemma keepNew_sublist (seen l : list (list Z)) : keepNew seen l `sublist_of` l.
Proof.
  revert seen. induction l as [|x l IH]; intros seen; simpl; [done|].
  case_bool_decide; [by apply sublist_cons|by apply sublist_skip].
Qed.

Section Scan.
Context (d : nat) {B : Type} `{!HTensorBasis B}.
Context (basis : B) (m_ext : list Z) (m_param_values : nat → nat → T).

Lemma locate_length (parameter : nat → T) : length (locate d basis parameter) = d.
Proof. unfold locate. by rewrite length_fmap, length_seq. Qed.

Lemma appendBox_unfold (boxes cells : list Z) (parameter : nat → T) :
  appendBox d basis m_ext boxes cells parameter =
  if isCellAlreadyInserted (locate d basis parameter) cells then (boxes, cells)
  else (boxes ++ boxRecord d basis m_ext (locate d basis parameter),
        cells ++ locate d basis parameter).
Proof.
  unfold appendBox. cbv zeta.
  destruct (isCellAlreadyInserted _ _); [done|].
  by rewrite !append_app, makeBox_record.
Qed.

Lemma getBoxes_loop (threshold : T) (es pre : list T) (bc : list Z * list Z) :
  foldl (λ bc index,
           match (pre ++ es) !! index with
           | Some e =>
               if Tleb threshold e
               then appendBox d basis m_ext bc.1 bc.2 (m_param_values index)
               else bc
           | None => bc
           end) bc (seq (length pre) (length es))
  = foldl (scanStep d basis m_ext m_param_values) bc (flaggedFrom (length pre) es threshold).
Proof.
  revert pre bc. induction es as [|e es IH]; intros pre bc; [done|].
  cbn [length seq foldl flaggedFrom].
  rewrite list_lookup_middle by done.
  specialize (IH (pre ++ [e])).
  rewrite length_app, <- app_assoc in IH. cbn [length app] in IH.
  replace (length pre + 1)%nat with (S (length pre)) in IH by lia.
  rewrite IH. by destruct (Tleb threshold e).
Qed.

(** [getBoxes] calls [appendBox] for the flagged samples, in order. *)
Lemma getBoxes_flagged (errors : list T) (threshold : T) :
  getBoxes d basis m_ext m_param_values errors threshold
  = (foldl (scanStep d basis m_ext m_param_values) ([], []) (flagged errors threshold)).1.
Proof.
  unfold getBoxes, flagged. f_equal.
  apply (getBoxes_loop threshold errors [] ([], [])).
Qed.

(** Every call adds nothing or the record of the located cell. *)
Lemma scan_kept (idxs : list nat) (boxes cells : list Z) :
  (foldl (scanStep d basis m_ext m_param_values) (boxes, cells) idxs).1
  = boxes ++ concat (boxRecord d basis m_ext <$> keptCells d basis m_param_values idxs cells).
Proof.
  revert boxes cells. induction idxs as [|index idxs IH]; intros boxes cells.
  - simpl. by rewrite app_nil_r.
  - cbn [foldl keptCells]. unfold scanStep at 2. cbn [fst snd].
    rewrite appendBox_unfold. fold (cellOf d basis m_param_values index).
    destruct (isCellAlreadyInserted _ _); [apply IH|].
    rewrite IH, fmap_cons. cbn [concat]. by rewrite <- app_assoc.
Qed.

Lemma scan_cells (idxs : list nat) (boxes cells : list Z) :
  (foldl (scanStep d basis m_ext m_param_values) (boxes, cells) idxs).2
  = cells ++ concat (keptCells d basis m_param_values idxs cells).
Proof.
  revert boxes cells. induction idxs as [|index idxs IH]; intros boxes cells.
  - simpl. by rewrite app_nil_r.
  - cbn [foldl keptCells]. unfold scanStep at 2. cbn [fst snd].
    rewrite appendBox_unfold. fold (cellOf d basis m_param_values index).
    destruct (isCellAlreadyInserted _ _); [apply IH|].
    rewrite IH. cbn [concat]. by rewrite <- app_assoc.
Qed.

Lemma getBoxes_kept (errors : list T) (threshold : T) :
  getBoxes d basis m_ext m_param_values errors threshold
  = concat (boxRecord d basis m_ext <$> keptCells d basis m_param_values (flagged errors threshold) []).
Proof. by rewrite getBoxes_flagged, scan_kept. Qed.

Lemma keptCells_sublist (idxs : list nat) (cells : list Z) :
  keptCells d basis m_param_values idxs cells `sublist_of` (cellOf d basis m_param_values <$> idxs).
Proof.
  revert cells. induction idxs as [|index idxs IH]; intros cells; [done|].
  cbn [keptCells]. rewrite fmap_cons.
  destruct (isCellAlreadyInserted _ _); [by apply sublist_cons|by apply sublist_skip].
Qed.


(** With at least one direction, a cell gets a box exactly when it was not
    met before in the same scan. *)
Lemma keptCells_keepNew (idxs : list nat) (seen : list (list Z)) :
  (0 < d)%nat →
  Forall (λ c, length c = d) seen →
  keptCells d basis m_param_values idxs (concat seen) = keepNew seen (cellOf d basis m_param_values <$> idxs).
Proof.
  intros Hd. revert seen.
  induction idxs as [|index idxs IH]; intros seen Hseen; [done|].
  cbn [keptCells]. rewrite fmap_cons. cbn [keepNew].
  rewrite isCellAlreadyInserted_spec.
  2:{ unfold cellOf. by rewrite locate_length. }
  2:{ eapply Forall_impl; [exact Hseen|]. intros c Hc.
      unfold cellOf. by rewrite locate_length. }
  case_bool_decide as Hin; [by apply IH|].
  f_equal. rewrite <- IH.
  - rewrite concat_app. simpl. by rewrite app_nil_r.
  - apply Forall_app. split; [done|]. apply Forall_singleton, locate_length.
Qed.

End Scan.

(** ** Reading a flat box vector back *)

Lemma chunksFuel_concat (n : nat) (cs : list (list Z)) :
  (0 < n)%nat →
  Forall (λ c, length c = n) cs →
  ∀ fuel, (length cs ≤ fuel)%nat → chunksFuel fuel n (concat cs) = cs.
Proof.
  intros Hn. induction 1 as [|c cs Hc _ IH]; intros fuel Hfuel.
  - by destruct fuel.
  - destruct fuel as [|fuel]; [simpl in Hfuel; lia|].
    cbn [concat chunksFuel].
    destruct c as [|z c]; [simpl in Hc; lia|].
    change ((z :: c) ++ concat cs) with (z :: (c ++ concat cs)).
    cbv iota. change (z :: (c ++ concat cs)) with ((z :: c) ++ concat cs).
    rewrite take_app_length' by done. rewrite drop_app_length' by done.
    rewrite IH; [done|]. simpl in Hfuel. lia.
Qed.

Lemma boxesOf_concat (d : nat) (cs : list (list Z)) :
  Forall (λ c, length c = (2 * d + 1)%nat) cs →
  boxesOf d (concat cs) = cs.
Proof.
  intros Hcs. unfold boxesOf. apply chunksFuel_concat; [lia|done|].
  rewrite (length_concat_uniform _ _ Hcs). nia.
Qed.

Lemma boxesOf_getBoxes (d : nat) {B : Type} `{!HTensorBasis B} (basis : B)
    (m_ext : list Z) (m_param_values : nat → nat → T)
    (errors : list T) (threshold : T) :
  boxesOf d (getBoxes d basis m_ext m_param_values errors threshold)
  = boxRecord d basis m_ext
      <$> keptCells d basis m_param_values (flagged errors threshold) [].
Proof.
  rewrite getBoxes_kept. apply boxesOf_concat.
  apply Forall_fmap, Forall_forall. intros c _. apply boxRecord_length.
Qed.

(** ** Arithmetic of the box builder *)

Lemma shiftr_unsigned (a s : Z) : is_unsigned a → 0 <= s → is_unsigned (Z.shiftr a s).
Proof.
  unfold is_unsigned. intros Ha Hs. rewrite Z.shiftr_div_pow2 by done.
  assert (0 < 2 ^ s) by (apply Z.pow_pos_nonneg; lia).
  split; [apply Z.div_pos; lia|].
  apply Z.le_lt_trans with a; [|lia].
  apply Z.div_le_upper_bound; nia.
Qed.

Lemma lowIndex_unsigned (cell_lvl maxLvl a : Z) :
  is_unsigned a → is_unsigned (lowIndex cell_lvl maxLvl a).
Proof.
  intros Ha. unfold lowIndex. destruct (cell_lvl <? maxLvl).
  - apply shiftr_unsigned; [done|]. apply Z.mod_pos_bound. lia.
  - apply wrap_range.
Qed.

Lemma lowBound_max (idx ext : Z) :
  is_unsigned idx → 0 <= ext → lowBound idx ext = Z.max 0 (idx - ext).
Proof.
  unfold is_unsigned, lowBound. intros Hidx Hext.
  destruct (Z.ltb_spec ext idx); [|lia].
  rewrite wrap_small by (unfold is_unsigned; lia). lia.
Qed.

Lemma uppBound_min (idx ext nb : Z) :
  0 <= idx → 0 <= ext → idx + ext + 1 < 2 ^ 32 →
  uppBound idx ext nb = Z.min nb (idx + ext + 1).
Proof.
  unfold uppBound. intros Hidx Hext Hsum.
  rewrite wrap_small by (unfold is_unsigned; lia).
  destruct (Z.ltb_spec (idx + ext + 1) nb); lia.
Qed.

Section BoxEntries.
Context (d : nat) {B : Type} `{!HTensorBasis B}.
Implicit Types (basis : B) (m_ext a_cell : list Z).

Lemma makeBox_lookup_level basis m_ext a_cell :
  makeBox d basis m_ext a_cell !! 0%nat = Some (wrap (cellLevel basis a_cell)).
Proof.
  destruct (fill_invariant d basis m_ext a_cell d (le_n d)) as (_ & Hlvl & _).
  exact Hlvl.
Qed.

Lemma makeBox_lookup_low basis m_ext a_cell (dim : nat) :
  (dim < d)%nat →
  makeBox d basis m_ext a_cell !! (1 + dim)%nat = Some (boxLow basis m_ext a_cell dim).
Proof.
  intros Hdim.
  destruct (fill_invariant d basis m_ext a_cell d (le_n d)) as (_ & _ & Hset).
  by destruct (Hset dim Hdim).
Qed.

Lemma makeBox_lookup_upp basis m_ext a_cell (dim : nat) :
  (dim < d)%nat →
  makeBox d basis m_ext a_cell !! (1 + d + dim)%nat
  = Some (boxUpp basis m_ext a_cell dim).
Proof.
  intros Hdim.
  destruct (fill_invariant d basis m_ext a_cell d (le_n d)) as (_ & _ & Hset).
  by destruct (Hset dim Hdim).
Qed.

Lemma makeBox_fmap basis m_ext (cs : list (list Z)) :
  makeBox d basis m_ext <$> cs = boxRecord d basis m_ext <$> cs.
Proof.
  induction cs as [|c cs IH]; [done|].
  by rewrite !fmap_cons, IH, makeBox_record.
Qed.

Lemma locate_lookup_unsigned basis (parameter : nat → T) (dim : nat) :
  is_unsigned (default 0 (locate d basis parameter !! dim)).
Proof.
  unfold locate. rewrite list_lookup_fmap.
  destruct (seq 0 d !! dim); simpl; [apply wrap_range|].
  unfold is_unsigned. lia.
Qed.

Lemma indexAtLevel_unsigned basis (parameter : nat → T) (dim : nat) :
  is_unsigned (indexAtLevel basis (locate d basis parameter) dim).
Proof. apply lowIndex_unsigned, locate_lookup_unsigned. Qed.

End BoxEntries.

(** * The claims on [getBoxes] and [appendBox] *)

(** C5.  [getBoxes(errors, threshold)] calls [appendBox] exactly for the
    samples whose error is at least the threshold (the comparison is
    inclusive), in increasing sample order.  Each call leaves the output as
    it is when the cell of the sample is already stored, and otherwise appends
    the record of the cell to it.  So the vector returned is the
    concatenation, in the order of the samples, of one record for each cell
    that the membership test of the source keeps ([cs] below: the cell of
    the first flagged sample always, the cells not met before when there is
    a direction), and each record is the level, then the [d] lower bounds,
    then the [d] upper bounds: [2 d + 1] entries. *)
Theorem getBoxes_scan_layout (d : nat) {B : Type} `{!HTensorBasis B} (basis : B)
    (m_ext : list Z) (m_param_values : nat → nat → T)
    (errors : list T) (threshold : T) :
  let boxes := getBoxes d basis m_ext m_param_values errors threshold in
  let cs := keptCells d basis m_param_values (flagged errors threshold) [] in
  (∀ index, index ∈ flagged errors threshold ↔
            ∃ e, errors !! index = Some e ∧ Tleb threshold e = true) ∧
  StronglySorted lt (flagged errors threshold) ∧
  boxes
  = (foldl (λ bc index, appendBox d basis m_ext bc.1 bc.2 (m_param_values index))
           ([], []) (flagged errors threshold)).1 ∧
  (∀ out cells parameter,
     appendBox d basis m_ext out cells parameter
     = if isCellAlreadyInserted (locate d basis parameter) cells then (out, cells)
       else (out ++ makeBox d basis m_ext (locate d basis parameter),
             cells ++ locate d basis parameter)) ∧
  boxes = concat (makeBox d basis m_ext <$> cs) ∧
  boxesOf d boxes = makeBox d basis m_ext <$> cs ∧
  length boxes = (length cs * (2 * d + 1))%nat ∧
  cs `sublist_of` (cellOf d basis m_param_values <$> flagged errors threshold) ∧
  (∀ index rest, flagged errors threshold = index :: rest →
     ∃ cs', cs = cellOf d basis m_param_values index :: cs') ∧
  ((0 < d)%nat →
     cs = keepNew [] (cellOf d basis m_param_values <$> flagged errors threshold)) ∧
  ∀ c,
    length (makeBox d basis m_ext c) = (2 * d + 1)%nat ∧
    ∃ lows upps,
      makeBox d basis m_ext c = wrap (cellLevel basis c) :: lows ++ upps ∧
      length lows = d ∧ length upps = d ∧
      (∀ dim, (dim < d)%nat →
         lows !! dim = Some (boxLow basis m_ext c dim) ∧
         upps !! dim = Some (boxUpp basis m_ext c dim)).
Proof.
  cbv zeta.
  split; [apply flagged_spec|].
  split; [apply flaggedFrom_sorted|].
  split; [apply getBoxes_flagged|].
  split.
  { intros out cells parameter. rewrite makeBox_record. apply appendBox_unfold. }
  rewrite makeBox_fmap.
  split; [apply getBoxes_kept|].
  split; [apply boxesOf_getBoxes|].
  split.
  { rewrite getBoxes_kept.
    rewrite (length_concat_uniform (2 * d + 1)); [by rewrite length_fmap|].
    apply Forall_fmap, Forall_forall. intros c _. apply boxRecord_length. }
  split; [apply keptCells_sublist|].
  split.
  { intros index rest ->. cbn [keptCells]. cbv zeta.
    change (isCellAlreadyInserted (cellOf d basis m_param_values index) [])
      with false.
    by eexists. }
  split.
  { intros Hd. by apply (keptCells_keepNew d basis m_param_values _ []). }
  intros c. rewrite makeBox_record. split; [apply boxRecord_length|].
  exists (boxLow basis m_ext c <$> seq 0 d), (boxUpp basis m_ext c <$> seq 0 d).
  split; [done|]. rewrite !length_fmap, !length_seq. split; [done|]. split; [done|].
  intros dim Hdim. by rewrite !list_lookup_fmap, !lookup_seq_lt by done.
Qed.

(** C3.  In one call of [getBoxes], with at least one direction: a flagged
    sample gets a box exactly when no flagged sample before it lies in the
    same finest-level cell, so the boxes are those of the distinct cells in
    order of first occurrence, one box per distinct cell; nothing compares
    the boxes themselves, so there are as many boxes as distinct cells even
    when two cells give the same box. *)
Theorem getBoxes_one_box_per_cell (d : nat) {B : Type} `{!HTensorBasis B}
    (basis : B) (m_ext : list Z) (m_param_values : nat → nat → T)
    (errors : list T) (threshold : T) :
  (0 < d)%nat →
  let cells := cellOf d basis m_param_values <$> flagged errors threshold in
  (∀ pre index post, flagged errors threshold = pre ++ index :: post →
     let bc := foldl (scanStep d basis m_ext m_param_values) ([], []) pre in
     let c := cellOf d basis m_param_values index in
     appendBox d basis m_ext bc.1 bc.2 (m_param_values index)
     = if bool_decide (c ∈ cellOf d basis m_param_values <$> pre) then bc
       else (bc.1 ++ makeBox d basis m_ext c, bc.2 ++ c)) ∧
  boxesOf d (getBoxes d basis m_ext m_param_values errors threshold)
  = makeBox d basis m_ext <$> keepNew [] cells ∧
  NoDup (keepNew [] cells) ∧
  (∀ c, c ∈ keepNew [] cells ↔ c ∈ cells) ∧
  keepNew [] cells `sublist_of` cells ∧
  length (boxesOf d (getBoxes d basis m_ext m_param_values errors threshold))
  = length (remove_dups cells).
Proof.
  intros Hd cells.
  assert (∀ idxs, keptCells d basis m_param_values idxs []
                  = keepNew [] (cellOf d basis m_param_values <$> idxs)) as Hkept.
  { intros idxs. by apply (keptCells_keepNew d basis m_param_values idxs []). }
  assert (NoDup (keepNew [] cells)) as Hnodup.
  { apply keepNew_nil_NoDup. }
  assert (∀ c, c ∈ keepNew [] cells ↔ c ∈ cells) as Helem.
  { intros c. apply keepNew_nil_elem_of. }
  split.
  { intros pre index post Hsplit bc c.
    rewrite appendBox_unfold. fold c.
    assert (bc.2 = concat (keepNew [] (cellOf d basis m_param_values <$> pre))) as Hcells.
    { unfold bc. by rewrite scan_cells, Hkept. }
    rewrite Hcells, isCellAlreadyInserted_spec.
    - rewrite makeBox_record.
      rewrite (bool_decide_ext _ (c ∈ cellOf d basis m_param_values <$> pre)).
      + rewrite <- Hcells. case_bool_decide; [|done].
        symmetry. apply surjective_pairing.
      + apply keepNew_nil_elem_of.
    - unfold c, cellOf. by rewrite locate_length.
    - apply Forall_forall. intros c' Hc'.
      assert (c' ∈ cellOf d basis m_param_values <$> pre) as Hin.
      { eapply elem_of_sublist; [done|apply keepNew_sublist]. }
      apply list_elem_of_fmap in Hin as (j & -> & _).
      unfold c, cellOf. by rewrite !locate_length. }
  rewrite boxesOf_getBoxes, Hkept, makeBox_fmap. fold cells.
  split; [done|]. split; [done|]. split; [done|].
  split; [apply keepNew_sublist|].
  rewrite length_fmap. apply Permutation_length.
  apply NoDup_Permutation; [done|apply NoDup_remove_dups|].
  intros c. by rewrite Helem, elem_of_remove_dups.
Qed.

(** C6.  When [appendBox] meets a cell that is not stored yet, the box it
    appends starts with the level [query3(a_cell, a_cell + 1, maxLvl) + 1]:
    the answer of the structural query over the half-open range of the cell,
    searched up to the finest level, plus exactly one (the answer being a
    level, an [int] from -1 on whose successor is an [int]). *)
Theorem appendBox_level (d : nat) {B : Type} `{!HTensorBasis B} (basis : B)
    (m_ext boxes cells : list Z) (parameter : nat → T) :
  let a_cell := locate d basis parameter in
  let a_cell_upp := (λ x, wrap (x + 1)) <$> a_cell in
  let q := query3 basis a_cell a_cell_upp (maxLevel basis) in
  isCellAlreadyInserted a_cell cells = false →
  -1 <= q < 2 ^ 31 - 1 →
  ∃ bounds,
    (appendBox d basis m_ext boxes cells parameter).1 = boxes ++ (q + 1) :: bounds ∧
    length bounds = (2 * d)%nat ∧
    (appendBox d basis m_ext boxes cells parameter).2 = cells ++ a_cell.
Proof.
  intros a_cell a_cell_upp q Hnew Hq.
  exists (drop 1 (makeBox d basis m_ext a_cell)).
  unfold appendBox. cbv zeta. fold a_cell. rewrite Hnew. cbn [fst snd].
  rewrite !append_app.
  pose proof (makeBox_lookup_level d basis m_ext a_cell) as Hlvl.
  assert (length (makeBox d basis m_ext a_cell) = (2 * d + 1)%nat) as Hlen.
  { rewrite makeBox_record. apply boxRecord_length. }
  destruct (makeBox d basis m_ext a_cell) as [|lvl rest] eqn:Hbox; [done|].
  simpl in Hlvl, Hlen. injection Hlvl as ->.
  unfold cellLevel. fold a_cell a_cell_upp q.
  rewrite wrap_small by (unfold is_unsigned; lia).
  split; [done|]. split; [|done]. simpl. rewrite drop_0. lia.
Qed.

(** C7.  For levels less than 32 apart, where the shifts of the source have a
    value: in every direction the bounds of a box are taken around the
    finest-level index of the cell reprojected to the level [L] of the box:
    shifted right by [maxLvl - L] when [L < maxLvl] (the quotient by that
    power of two), shifted left by [L - maxLvl] in [unsigned] when
    [L >= maxLvl] (the product by that power of two, modulo [2^32]). *)
Theorem makeBox_reprojection (d : nat) {B : Type} `{!HTensorBasis B} (basis : B)
    (m_ext a_cell : list Z) (dim : nat) (a : Z) :
  let L := cellLevel basis a_cell in
  let maxLvl := maxLevel basis in
  let idx := if L <? maxLvl then Z.shiftr a (maxLvl - L)
             else (Z.shiftl a (L - maxLvl)) mod 2 ^ 32 in
  (dim < d)%nat →
  a_cell !! dim = Some a →
  0 <= L < 2 ^ 31 →
  0 <= maxLvl < 2 ^ 31 →
  -32 < L - maxLvl < 32 →
  makeBox d basis m_ext a_cell !! (1 + dim)%nat
  = Some (lowBound idx (default 0 (m_ext !! dim))) ∧
  makeBox d basis m_ext a_cell !! (1 + d + dim)%nat
  = Some (uppBound idx (default 0 (m_ext !! dim)) (wrap (numBreaks basis L dim - 1))) ∧
  (L < maxLvl → idx = a / 2 ^ (maxLvl - L)) ∧
  (maxLvl <= L → idx = (a * 2 ^ (L - maxLvl)) mod 2 ^ 32).
Proof.
  intros L maxLvl idx Hdim Ha HL HM Hshift.
  assert (indexAtLevel basis a_cell dim = idx) as Hidx.
  { unfold indexAtLevel, lowIndex, idx. fold L maxLvl. rewrite Ha.
    cbn [default from_option].
    destruct (Z.ltb_spec L maxLvl).
    - rewrite wrap_small by (unfold is_unsigned; lia).
      by rewrite Z.mod_small by lia.
    - rewrite (wrap_small (L - maxLvl)) by (unfold is_unsigned; lia).
      by rewrite Z.mod_small by lia. }
  split.
  { rewrite makeBox_lookup_low by done. unfold boxLow. by rewrite Hidx. }
  split.
  { rewrite makeBox_lookup_upp by done. unfold boxUpp, maxUpper. by rewrite Hidx. }
  unfold idx. split.
  - intros Hlt. destruct (Z.ltb_spec L maxLvl); [|lia].
    apply Z.shiftr_div_pow2. lia.
  - intros Hle. destruct (Z.ltb_spec L maxLvl); [lia|].
    by rewrite Z.shiftl_mul_pow2 by lia.
Qed.

(** ** Extension and clamping *)

Lemma default_lookup_unsigned (l : list Z) (i : nat) :
  Forall is_unsigned l → is_unsigned (default 0 (l !! i)).
Proof.
  intros Hl. destruct (l !! i) as [x|] eqn:Hx; simpl.
  - by apply (Forall_lookup_1 _ _ _ _ Hl Hx).
  - unfold is_unsigned. lia.
Qed.





(** ** Selection by rank *)

Section Selection.

Lemma filter_all {A : Type} (P : A → Prop) `{!∀ x, Decision (P x)} (l : list A) :
  Forall P l → filter P l = l.
Proof.
  induction 1 as [|x l Hx _ IH]; [done|].
  by rewrite filter_cons_True, IH.
Qed.

Lemma filter_none {A : Type} (P : A → Prop) `{!∀ x, Decision (P x)} (l : list A) :
  Forall (λ x, ¬ P x) l → filter P l = [].
Proof.
  induction 1 as [|x l Hx _ IH]; [done|].
  by rewrite filter_cons_False.
Qed.

(** If the first [n] elements satisfy [P], at least [n] elements do. *)
Lemma filter_length_take {A : Type} (P : A → Prop) `{!∀ x, Decision (P x)}
    (l : list A) (n : nat) :
  (n ≤ length l)%nat → Forall P (take n l) → (n ≤ length (filter P l))%nat.
Proof.
  intros Hn Htake. rewrite <- (take_drop n l) at 1.
  rewrite filter_app, length_app, (filter_all P _ Htake), length_take. lia.
Qed.

(** If no element from position [n] on satisfies [P], at most [n] do. *)
Lemma filter_length_drop {A : Type} (P : A → Prop) `{!∀ x, Decision (P x)}
    (l : list A) (n : nat) :
  Forall (λ x, ¬ P x) (drop n l) → (length (filter P l) ≤ n)%nat.
Proof.
  intros Hdrop. rewrite <- (take_drop n l) at 1.
  rewrite filter_app, length_app, (filter_none P _ Hdrop). simpl.
  pose proof (length_filter P (take n l)). rewrite length_take in *. lia.
Qed.

Lemma StronglySorted_lookup_le (l : list T) (j k : nat) (a b : T) :
  StronglySorted Tle l → (j ≤ k)%nat →
  l !! j = Some a → l !! k = Some b → Tle a b.
Proof.
  intros Hs. revert j k. induction Hs as [|x l Hs IH Hall]; intros j k Hjk Ha Hb.
  - done.
  - destruct j as [|j], k as [|k]; simpl in *.
    + injection Ha as <-. injection Hb as <-. apply Tle_refl.
    + injection Ha as <-.
      apply (Forall_lookup_1 _ _ _ _ Hall Hb).
    + lia.
    + apply (IH j k); [lia|done..].
Qed.

(** The element that a partition around position [i] leaves at [i] is the
    element at [i] of the sorted sequence. *)
Lemma partition_rank (l l' : list T) (i : nat) (x : T) :
  l' ≡ₚ l →
  l' !! i = Some x →
  (∀ j y, (j < i)%nat → l' !! j = Some y → Tle y x) →
  (∀ j y, (i < j)%nat → l' !! j = Some y → Tle x y) →
  merge_sort Tle l !! i = Some x.
Proof.
  intros Hperm Hx Hbefore Hafter.
  set (s := merge_sort Tle l).
  assert (s ≡ₚ l') as Hs by (unfold s; by rewrite merge_sort_Permutation).
  assert (StronglySorted Tle s) as Hsorted
    by (apply StronglySorted_merge_sort; apply _).
  assert (i < length l')%nat as Hi by (by eapply lookup_lt_Some).
  assert (length s = length l') as Hlen by (by rewrite Hs).
  destruct (lookup_lt_is_Some_2 s i) as [y Hy]; [lia|].
  rewrite Hy. f_equal. apply Tle_antisym.
  - (* y <= x: otherwise at most i elements are <= x *)
    destruct (decide (Tle y x)) as [|Hyx]; [done|exfalso].
    assert (i + 1 ≤ length (filter (λ z, Tle z x) l'))%nat as Hmany.
    { replace (i + 1)%nat with (S i) by lia.
      apply filter_length_take; [lia|].
      apply Forall_lookup. intros j z Hz.
      apply lookup_take_Some in Hz as [Hz Hj].
      destruct (decide (j = i)) as [->|Hne].
      - rewrite Hx in Hz. injection Hz as <-. apply Tle_refl.
      - apply (Hbefore j); [lia|done]. }
    assert (length (filter (λ z, Tle z x) s) ≤ i)%nat as Hfew.
    { apply filter_length_drop. apply Forall_lookup. intros j z Hz Hzx.
      rewrite lookup_drop in Hz. apply Hyx.
      apply Tle_trans with z; [|done].
      apply (StronglySorted_lookup_le s i (i + j)); [done|lia|done..]. }
    rewrite Hs in Hfew. lia.
  - (* x <= y: otherwise at least i + 1 elements are below x *)
    destruct (decide (Tle x y)) as [|Hxy]; [done|exfalso].
    assert (length (filter (λ z, ¬ Tle x z) l') ≤ i)%nat as Hfew.
    { apply filter_length_drop. apply Forall_lookup. intros j z Hz Hzx.
      rewrite lookup_drop in Hz. apply Hzx.
      destruct (decide (j = 0%nat)) as [->|Hne].
      - rewrite Nat.add_0_r, Hx in Hz. injection Hz as <-. apply Tle_refl.
      - apply (Hafter (i + j)%nat); [lia|done]. }
    assert (i + 1 ≤ length (filter (λ z, ¬ Tle x z) s))%nat as Hmany.
    { replace (i + 1)%nat with (S i) by lia.
      apply filter_length_take; [lia|].
      apply Forall_lookup. intros j z Hz Hxz.
      apply lookup_take_Some in Hz as [Hz Hj]. apply Hxy.
      apply Tle_trans with z; [done|].
      apply (StronglySorted_lookup_le s j i); [done|lia|done..]. }
    rewrite Hs in Hmany. lia.
Qed.

End Selection.

(** A full sort is one way to meet the contract of [std::nth_element]. *)
Lemma sort_perm (l : list T) (i : nat) : (i ≤ length l)%nat → merge_sort Tle l ≡ₚ l.
Proof. intros _. apply merge_sort_Permutation. Qed.

Lemma sort_before (l : list T) (i j : nat) (x y : T) :
  (j < i)%nat → merge_sort Tle l !! i = Some x → merge_sort Tle l !! j = Some y →
  Tle y x.
Proof.
  intros Hji Hx Hy.
  apply (StronglySorted_lookup_le (merge_sort Tle l) j i); [|lia|done..].
  apply StronglySorted_merge_sort; apply _.
Qed.

Lemma sort_after (l : list T) (i j : nat) (x y : T) :
  (i < j)%nat → merge_sort Tle l !! i = Some x → merge_sort Tle l !! j = Some y →
  Tle x y.
Proof.
  intros Hij Hx Hy.
  apply (StronglySorted_lookup_le (merge_sort Tle l) i j); [|lia|done..].
  apply StronglySorted_merge_sort; apply _.
Qed.

Definition sortNthElement : NthElement :=
  {| nth_element l i := merge_sort Tle l;
     nth_element_perm := sort_perm;
     nth_element_before := sort_before;
     nth_element_after := sort_after |}.

(** ** Arithmetic of [T]: rounding to the nearest integer, ties to even *)

Lemma inject_Z_pred (K : Z) : (inject_Z (K - 1) == inject_Z K - 1)%Q.
Proof. unfold Z.sub. rewrite inject_Z_plus, inject_Z_opp. reflexivity. Qed.


Lemma rne_comp (m m' : Q) : (m == m')%Q → rne m = rne m'.
Proof.
  intros Hm. unfold rne. rewrite (Qfloor_comp _ _ Hm).
  assert ((m - inject_Z (Qfloor m') ?= 1 # 2) = (m' - inject_Z (Qfloor m') ?= 1 # 2))%Q
    as -> by (by rewrite Hm).
  done.
Qed.

Lemma rne_Z (z : Z) : rne (inject_Z z) = z.
Proof.
  unfold rne. rewrite Qfloor_Z.
  assert ((inject_Z z - inject_Z z ?= 1 # 2)%Q = Lt) as ->; [|done].
  apply (proj1 (Qlt_alt _ _)). lra.
Qed.

Lemma rne_bounds (m : Q) : Qfloor m <= rne m <= Qfloor m + 1.
Proof.
  unfold rne. destruct (_ ?= _)%Q; [destruct (Z.even _)|..]; lia.
Qed.

Lemma rne_le (m : Q) (K : Z) : (m <= inject_Z K)%Q → rne m <= K.
Proof.
  intros Hm.
  destruct (Qlt_le_dec m (inject_Z K)) as [Hlt|Hge].
  - pose proof (rne_bounds m) as Hb.
    assert (Qfloor m < K); [|lia].
    rewrite Zlt_Qlt. eapply Qle_lt_trans; [apply Qfloor_le|done].
  - rewrite (rne_comp m (inject_Z K)) by (by apply Qle_antisym).
    rewrite rne_Z. lia.
Qed.

Lemma rne_ge (m : Q) (K : Z) : (inject_Z K <= m)%Q → K <= rne m.
Proof.
  intros Hm. pose proof (rne_bounds m) as Hb.
  assert (K <= Qfloor m); [|lia].
  rewrite <- (Qfloor_Z K). by apply Qfloor_resp_le.
Qed.

Lemma rne_below_half (m : Q) (K : Z) :
  (m < inject_Z K - (1 # 2))%Q → rne m <= K - 1.
Proof.
  intros Hm.
  assert (Qfloor m <= K - 1) as Hf.
  { assert (Qfloor m < K); [|lia].
    rewrite Zlt_Qlt. eapply Qle_lt_trans; [apply Qfloor_le|]. lra. }
  destruct (Z.eq_dec (Qfloor m) (K - 1)) as [Heq|Hne].
  - unfold rne. rewrite Heq.
    assert ((m - inject_Z (K - 1) ?= 1 # 2)%Q = Lt) as ->; [|lia].
    apply (proj1 (Qlt_alt _ _)). rewrite inject_Z_pred. lra.
  - pose proof (rne_bounds m). lia.
Qed.

Lemma Qfloor_eq (m : Q) (z : Z) :
  (inject_Z z <= m)%Q → (m < inject_Z z + 1)%Q → Qfloor m = z.
Proof.
  intros Hlo Hhi.
  assert (z <= Qfloor m).
  { rewrite <- (Qfloor_Z z). by apply Qfloor_resp_le. }
  assert (Qfloor m < z + 1); [|lia].
  rewrite Zlt_Qlt, inject_Z_plus. eapply Qle_lt_trans; [apply Qfloor_le|done].
Qed.

Lemma rne_above_half (m : Q) (K : Z) :
  (inject_Z K - (1 # 2) <= m)%Q → (m <= inject_Z K)%Q → Z.even K = true →
  rne m = K.
Proof.
  intros Hlo Hhi Heven.
  destruct (Qlt_le_dec m (inject_Z K)) as [Hlt|Hge].
  - assert (Qfloor m = K - 1) as Hf.
    { apply Qfloor_eq; rewrite inject_Z_pred; lra. }
    unfold rne. rewrite Hf.
    assert (Z.even (K - 1) = false) as ->.
    { rewrite Z.even_sub, Heven. done. }
    destruct (_ ?= _)%Q eqn:Hc; [lia| |lia].
    apply (proj2 (Qlt_alt _ _)) in Hc. rewrite inject_Z_pred in Hc. lra.
  - rewrite (rne_comp m (inject_Z K)) by (by apply Qle_antisym).
    apply rne_Z.
Qed.

(** ** The spacing of doubles *)

Lemma fracBits_nonneg (q : Q) : 0 <= fracBits q.
Proof. unfold fracBits. lia. Qed.

Lemma fracBits_le (q : Q) : fracBits q <= 1074.
Proof. unfold fracBits. lia. Qed.

Lemma inject_Z_nonzero (z : Z) : 0 < z → ¬ (inject_Z z == 0)%Q.
Proof.
  intros Hz H0. apply (proj1 (inject_Z_injective z 0)) in H0. lia.
Qed.

Lemma inject_Z_positive (z : Z) : 0 < z → (0 < inject_Z z)%Q.
Proof. intros Hz. change 0%Q with (inject_Z 0). by rewrite <- Zlt_Qlt. Qed.

(** The value of [roundPos]. *)
Lemma roundPos_value (q : Q) :
  (roundPos q == inject_Z (rne (q * inject_Z (2 ^ fracBits q)))
                 / inject_Z (2 ^ fracBits q))%Q.
Proof.
  unfold roundPos. cbv zeta. rewrite Qred_correct.
  pose proof (fracBits_nonneg q) as Hj.
  assert (0 < 2 ^ fracBits q) as Hs by (by apply Z.pow_pos_nonneg).
  rewrite Qmake_Qdiv. by rewrite Z2Pos.id.
Qed.

Lemma roundT_comp (q q' : Q) : (q == q')%Q → roundT q = roundT q'.
Proof. intros Hq. unfold roundT. by rewrite (Qred_complete _ _ Hq). Qed.

Lemma expoQ_comp (q q' : Q) : (q == q')%Q → expoQ q = expoQ q'.
Proof.
  intros Hq. unfold expoQ.
  rewrite (Qleb_comp 1%Q 1%Q (Qeq_refl 1%Q) q q' Hq).
  rewrite (Qfloor_comp q q' Hq).
  by rewrite (Qceiling_comp (/ q) (/ q') (Qinv_comp q q' Hq)).
Qed.

Lemma fracBits_comp (q q' : Q) : (q == q')%Q → fracBits q = fracBits q'.
Proof. intros Hq. unfold fracBits. by rewrite (expoQ_comp q q' Hq). Qed.

Lemma roundT_nonneg (q : Q) :
  (0 <= q)%Q →
  (roundT q == inject_Z (rne (q * inject_Z (2 ^ fracBits q)))
               / inject_Z (2 ^ fracBits q))%Q.
Proof.
  intros Hq. rewrite <- (fracBits_comp (Qred q) q (Qred_correct q)).
  unfold roundT. cbv zeta.
  assert (Qle_bool 0 (Qred q) = true) as ->.
  { apply Qle_bool_iff. by rewrite Qred_correct. }
  rewrite roundPos_value.
  rewrite (rne_comp (Qred q * _) (q * inject_Z (2 ^ fracBits (Qred q))));
    [done|].
  apply Qmult_comp; [apply Qred_correct|reflexivity].
Qed.

Lemma roundT_Z (z : Z) : 0 <= z → (roundT (inject_Z z) == inject_Z z)%Q.
Proof.
  intros Hz.
  rewrite roundT_nonneg by (change 0%Q with (inject_Z 0); by rewrite <- Zle_Qle).
  set (j := fracBits (inject_Z z)).
  assert (0 < 2 ^ j) as Hs by (apply Z.pow_pos_nonneg; [lia|apply fracBits_nonneg]).
  rewrite <- inject_Z_mult, rne_Z, inject_Z_mult.
  field. by apply inject_Z_nonzero.
Qed.


Lemma pow2_scale_pos (q : Q) : (0 < inject_Z (2 ^ fracBits q))%Q.
Proof. apply inject_Z_positive, Z.pow_pos_nonneg; [lia|apply fracBits_nonneg]. Qed.

Lemma roundT_ge_0 (q : Q) : (0 <= q)%Q → (0 <= roundT q)%Q.
Proof.
  intros Hq. rewrite roundT_nonneg by done.
  pose proof (pow2_scale_pos q) as Hs.
  apply Qle_shift_div_l; [done|]. rewrite Qmult_0_l.
  change 0%Q with (inject_Z 0). rewrite <- Zle_Qle.
  apply rne_ge. change (inject_Z 0) with 0%Q. nra.
Qed.

(** ** The exponent in the ranges that matter *)

Lemma Qceiling_eq (m : Q) (z : Z) :
  (inject_Z z - 1 < m)%Q → (m <= inject_Z z)%Q → Qceiling m = z.
Proof.
  intros Hlo Hhi. unfold Qceiling.
  rewrite (Qfloor_eq (- m) (- z)); [lia|rewrite inject_Z_opp; lra..].
Qed.

Lemma fracBits_half (q : Q) : (1 # 2 <= q)%Q → (q < 1)%Q → fracBits q = 53.
Proof.
  intros Hlo Hhi. unfold fracBits, expoQ.
  assert (Qle_bool 1 q = false) as ->.
  { apply not_true_is_false. rewrite Qle_bool_iff. lra. }
  rewrite (Qceiling_eq (/ q) 2); [done|..].
  - change (inject_Z 2 - 1)%Q with (2 - 1)%Q.
    apply Qlt_shift_inv_l; [lra|]. lra.
  - apply Qle_shift_inv_r; [lra|]. change (inject_Z 2) with 2%Q. lra.
Qed.

Lemma fracBits_small (q : Q) : (0 < q)%Q → (q < 1 # 2)%Q → 54 <= fracBits q.
Proof.
  intros Hlo Hhi. unfold fracBits, expoQ.
  assert (Qle_bool 1 q = false) as ->.
  { apply not_true_is_false. rewrite Qle_bool_iff. lra. }
  assert (3 <= Qceiling (/ q)) as Hc.
  { assert (2 < Qceiling (/ q)); [|lia].
    rewrite Zlt_Qlt. eapply Qlt_le_trans; [|apply Qle_ceiling].
    apply Qlt_shift_inv_l; [lra|]. change (inject_Z 2) with 2%Q. lra. }
  pose proof (Z.log2_up_le_mono 3 _ Hc) as Hl.
  change (Z.log2_up 3) with 2 in Hl. lia.
Qed.

Lemma fracBits_below (x : Q) (N : Z) :
  (0 < x)%Q → (x < inject_Z N)%Q → 2 ^ 52 < N * 2 ^ fracBits x.
Proof.
  intros Hx HN. unfold fracBits, expoQ.
  destruct (Qle_bool 1 x) eqn:H1.
  - apply Qle_bool_iff in H1.
    assert (1 <= Qfloor x) as Hf1.
    { rewrite <- (Qfloor_Z 1). by apply Qfloor_resp_le. }
    assert (Qfloor x < N) as HfN.
    { rewrite Zlt_Qlt. eapply Qle_lt_trans; [apply Qfloor_le|done]. }
    destruct (Z.log2_spec (Qfloor x)) as [Hlog _]; [lia|].
    pose proof (Z.log2_nonneg (Qfloor x)) as He.
    set (e := Z.log2 (Qfloor x)) in *.
    destruct (Z.le_gt_cases e 52) as [Hle|Hgt].
    + replace (52 - Z.min (Z.max e (-1022)) 52) with (52 - e) by lia.
      assert (2 ^ 52 = 2 ^ e * 2 ^ (52 - e)) as ->.
      { rewrite <- Z.pow_add_r by lia. f_equal. lia. }
      apply Z.mul_lt_mono_pos_r; [apply Z.pow_pos_nonneg; lia|lia].
    + replace (52 - Z.min (Z.max e (-1022)) 52) with 0 by lia.
      assert (2 ^ 52 < 2 ^ e) by (apply Z.pow_lt_mono_r; lia).
      lia.
  - assert (x < 1)%Q as Hx1.
    { apply Qnot_le_lt. intros Hle. apply Qle_bool_iff in Hle. congruence. }
    assert (1 <= N) as HN1.
    { assert (0 < N); [|lia]. rewrite Zlt_Qlt.
      change (inject_Z 0) with 0%Q. lra. }
    assert (2 <= Qceiling (/ x)) as Hc.
    { assert (1 < Qceiling (/ x)); [|lia].
      rewrite Zlt_Qlt. eapply Qlt_le_trans; [|apply Qle_ceiling].
      apply Qlt_shift_inv_l; [lra|]. change (inject_Z 1) with 1%Q. lra. }
    pose proof (Z.log2_up_le_mono 2 _ Hc) as Hl.
    change (Z.log2_up 2) with 1 in Hl.
    set (k := Z.log2_up (Qceiling (/ x))) in *.
    assert (53 <= 52 - Z.min (Z.max (- k) (-1022)) 52) as Hj by lia.
    assert (2 ^ 53 <= 2 ^ (52 - Z.min (Z.max (- k) (-1022)) 52)) as Hp
      by (apply Z.pow_le_mono_r; lia).
    assert (2 ^ 52 < 2 ^ 53) by (apply Z.pow_lt_mono_r; lia).
    nia.
Qed.

(** ** The two operations of the rank *)

(** [1.0 - p] is [1.0] for every [p] up to [2^-54]. *)
Lemma roundT_one_minus_tiny (p : Q) :
  (0 <= p)%Q → (p <= 1 # 2 ^ 54)%Q → (roundT (1 - p) == 1)%Q.
Proof.
  intros H0 Hp.
  assert (1 # 2 ^ 54 < 1 # 2)%Q as Hhalf by reflexivity.
  destruct (Qlt_le_dec 0 p) as [Hpos|Hzero].
  - rewrite roundT_nonneg by lra.
    rewrite (fracBits_half (1 - p)) by lra.
    rewrite (rne_above_half _ (2 ^ 53)); [reflexivity| | |reflexivity].
    + assert (inject_Z (2 ^ 53) * (1 # 2 ^ 54) == 1 # 2)%Q as Hs by reflexivity.
      assert (0 <= inject_Z (2 ^ 53))%Q as Hn by done.
      nra.
    + assert (0 <= inject_Z (2 ^ 53))%Q as Hn by done. nra.
  - rewrite (roundT_comp (1 - p) (inject_Z 1)) by (change (inject_Z 1) with 1%Q; lra).
    by apply roundT_Z.
Qed.

(** Above [2^-54] it is at most the double before [1.0]. *)
Lemma roundT_one_minus_le (p : Q) :
  (1 # 2 ^ 54 < p)%Q → (p <= 1)%Q →
  (0 <= roundT (1 - p))%Q ∧ (roundT (1 - p) <= 1 - (1 # 2 ^ 53))%Q.
Proof.
  intros Hp H1. split; [apply roundT_ge_0; lra|].
  assert (1 # 2 ^ 54 < 1 # 2)%Q as Hhalf by reflexivity.
  assert (0 < 1 # 2 ^ 54)%Q as Hsmall by reflexivity.
  set (q := (1 - p)%Q).
  assert (0 <= q)%Q as Hq0 by (unfold q; lra).
  assert (q < 1 - (1 # 2 ^ 54))%Q as Hq1 by (unfold q; lra).
  destruct (Qlt_le_dec 0 q) as [Hpos|Hzero].
  2:{ rewrite (roundT_comp q (inject_Z 0)) by (change (inject_Z 0) with 0%Q; lra).
      rewrite roundT_Z by lia. done. }
  rewrite roundT_nonneg by done.
  pose proof (pow2_scale_pos q) as Hs.
  apply Qle_shift_div_r; [done|].
  destruct (Qlt_le_dec q (1 # 2)) as [Hlow|Hhigh].
  - pose proof (fracBits_small q Hpos Hlow) as Hj.
    set (j := fracBits q) in *.
    assert (2 ^ j = 2 * 2 ^ (j - 1)) as Hpow.
    { rewrite <- (Z.pow_succ_r 2 (j - 1)) by lia. f_equal. lia. }
    assert (rne (q * inject_Z (2 ^ j)) <= 2 ^ (j - 1)) as Hr.
    { apply rne_le. rewrite Hpow, inject_Z_mult in *.
      change (inject_Z 2) with 2%Q in *. nra. }
    rewrite Zle_Qle in Hr. set (R := rne (q * inject_Z (2 ^ j))) in *.
    rewrite Hpow, inject_Z_mult in Hs |- *.
    change (inject_Z 2) with 2%Q in *.
    assert (1 # 2 <= 1 - (1 # 2 ^ 53))%Q as Hc by done.
    revert Hc. generalize (1 # 2 ^ 53)%Q. intros c Hc. nra.
  - rewrite (fracBits_half q) in Hs |- * by lra.
    assert (rne (q * inject_Z (2 ^ 53)) <= 2 ^ 53 - 1) as Hr.
    { apply rne_below_half.
      assert (inject_Z (2 ^ 53) * (1 # 2 ^ 54) == 1 # 2)%Q as Hh by reflexivity.
      nra. }
    rewrite Zle_Qle in Hr. eapply Qle_trans; [exact Hr|]. by vm_compute.
Qed.

(** The product of a size with a factor below [1.0] stays below the size. *)
Lemma roundT_size_below (N : Z) (r : Q) :
  1 <= N → (0 <= r)%Q → (r <= 1 - (1 # 2 ^ 53))%Q →
  (0 <= roundT (inject_Z N * r))%Q ∧ (roundT (inject_Z N * r) < inject_Z N)%Q.
Proof.
  intros HN Hr0 Hr1.
  assert (0 < inject_Z N)%Q as HNq by (apply inject_Z_positive; lia).
  set (x := (inject_Z N * r)%Q).
  assert (0 <= x)%Q as Hx0 by (unfold x; nra).
  split; [by apply roundT_ge_0|].
  destruct (Qlt_le_dec 0 x) as [Hpos|Hzero].
  - assert (1 - (1 # 2 ^ 53) < 1)%Q as Hlt1 by reflexivity.
    assert (x < inject_Z N)%Q as HxN by (unfold x; nra).
    pose proof (fracBits_below x N Hpos HxN) as Hscale.
    rewrite roundT_nonneg by done.
    pose proof (pow2_scale_pos x) as Hs.
    set (s := 2 ^ fracBits x) in *.
    apply Qlt_shift_div_r; [done|].
    assert (rne (x * inject_Z s) <= N * s - 1) as Hr.
    { apply rne_below_half. rewrite inject_Z_mult.
      rewrite Zlt_Qlt in Hscale. rewrite inject_Z_mult in Hscale.
      assert (x * inject_Z s == inject_Z N * inject_Z s * r)%Q as ->
        by (unfold x; ring).
      assert (0 < 1 # 2 ^ 53)%Q as Hc0 by reflexivity.
      assert (inject_Z (2 ^ 52) * (1 # 2 ^ 53) == 1 # 2)%Q as Hh by reflexivity.
      assert (0 < inject_Z N * inject_Z s)%Q as Hns by nra.
      revert Hscale Hr1 Hc0 Hh Hns.
      generalize (inject_Z N * inject_Z s)%Q (1 # 2 ^ 53)%Q (inject_Z (2 ^ 52)).
      intros NS c P Hscale Hr1 Hc0 Hh Hns.
      assert (NS * r <= NS * (1 - c))%Q by nra.
      assert (P * c < NS * c)%Q by nra.
      lra. }
    rewrite Zle_Qle in Hr. rewrite inject_Z_pred, inject_Z_mult in Hr. lra.
  - rewrite (roundT_comp x (inject_Z 0)) by (change (inject_Z 0) with 0%Q; lra).
    rewrite roundT_Z by lia. done.
Qed.

(** ** The threshold selector *)

Lemma castSize_comp (x y : Q) : (x == y)%Q → castSize x = castSize y.
Proof.
  intros Hxy. unfold castSize.
  by rewrite (Qleb_comp 0%Q 0%Q (Qeq_refl 0%Q) x y Hxy), (Qfloor_comp x y Hxy),
    (Qceiling_comp x y Hxy).
Qed.

Lemma castSize_nonneg (x : Q) :
  (0 <= x)%Q → castSize x = Some (Z.to_nat (Qfloor x)).
Proof.
  intros Hx. unfold castSize.
  assert (Qle_bool 0 x = true) as -> by by apply Qle_bool_iff.
  assert (0 <= Qfloor x) as H0.
  { rewrite <- (Qfloor_Z 0). by apply Qfloor_resp_le. }
  by destruct (Z.leb_spec 0 (Qfloor x)); [|lia].
Qed.

(** Up to [2^-54] the percentage is lost in [1.0 - m_ref]: the rank is the
    size of the field. *)
Lemma rankIndex_tiny (p : Qc) (size : nat) :
  (0 <= p)%Q → (p <= 1 # 2 ^ 54)%Q → rankIndex (Fin p) size = Some size.
Proof.
  intros H0 Hp. unfold rankIndex.
  rewrite (roundT_comp _ (inject_Z (Z.of_nat size))).
  - rewrite (castSize_comp _ (inject_Z (Z.of_nat size))) by (apply roundT_Z; lia).
    rewrite castSize_nonneg by (change 0%Q with (inject_Z 0); rewrite <- Zle_Qle; lia).
    by rewrite Qfloor_Z, Nat2Z.id.
  - rewrite (roundT_one_minus_tiny p H0 Hp). ring.
Qed.

Lemma rankIndex_zero (size : nat) : rankIndex T0 size = Some size.
Proof. by apply rankIndex_tiny. Qed.

(** Above [2^-54] the rank is inside a non-empty field. *)
Lemma rankIndex_below (p : Qc) (size : nat) :
  (1 # 2 ^ 54 < p)%Q → (p <= 1)%Q → (0 < size)%nat →
  ∃ i, rankIndex (Fin p) size = Some i ∧ (i < size)%nat.
Proof.
  intros Hp H1 Hsize. unfold rankIndex.
  destruct (roundT_one_minus_le p Hp H1) as [Hr0 Hr1].
  destruct (roundT_size_below (Z.of_nat size) (roundT (1 - p)) ltac:(lia) Hr0 Hr1)
    as [Hx0 HxN].
  rewrite castSize_nonneg by done.
  eexists. split; [done|].
  assert (0 <= Qfloor (roundT (inject_Z (Z.of_nat size) * roundT (1 - p)))) as Hf0.
  { rewrite <- (Qfloor_Z 0). by apply Qfloor_resp_le. }
  assert (Qfloor (roundT (inject_Z (Z.of_nat size) * roundT (1 - p))) < Z.of_nat size).
  { rewrite Zlt_Qlt. eapply Qle_lt_trans; [apply Qfloor_le|done]. }
  lia.
Qed.

Lemma rankIndex_one (p : Qc) (size : nat) :
  (p == 1)%Q → rankIndex (Fin p) size = Some 0%nat.
Proof.
  intros Hp. unfold rankIndex.
  rewrite (roundT_comp (1 - p) (inject_Z 0)) by (change (inject_Z 0) with 0%Q; lra).
  rewrite (roundT_comp _ (inject_Z 0)).
  - by rewrite (castSize_comp _ (inject_Z 0)) by (by apply roundT_Z).
  - rewrite (roundT_Z 0) by done. change (inject_Z 0) with 0%Q. ring.
Qed.

Section Threshold.
Context `{!NthElement}.

(** A rank at or past the size of the field: [*pos] is read outside the
    copy. *)
Lemma setRefineThreshold_past_end (m_ref : T) (errors : list T) (i : nat) :
  rankIndex m_ref (length errors) = Some i → (length errors ≤ i)%nat →
  setRefineThreshold m_ref errors = None.
Proof.
  intros Hrank Hi. unfold setRefineThreshold. rewrite Hrank. simpl.
  destruct (decide (i ≤ length errors)%nat) as [Hle|]; [|done].
  apply lookup_ge_None_2. rewrite (nth_element_perm errors i Hle). lia.
Qed.

(** A rank inside the field: the selected value is the element of that rank
    of the field sorted ascending. *)
Lemma setRefineThreshold_inside (m_ref : T) (errors : list T) (i : nat) :
  rankIndex m_ref (length errors) = Some i → (i < length errors)%nat →
  ∃ t, setRefineThreshold m_ref errors = Some t ∧
       merge_sort Tle errors !! i = Some t.
Proof.
  intros Hrank Hi. unfold setRefineThreshold. rewrite Hrank. simpl.
  rewrite decide_True by lia.
  pose proof (nth_element_perm errors i ltac:(lia)) as Hperm.
  destruct (lookup_lt_is_Some_2 (nth_element errors i) i) as [t Ht].
  { rewrite Hperm. lia. }
  exists t. split; [done|].
  apply (partition_rank errors (nth_element errors i) i t Hperm Ht).
  - intros j y Hj Hy. by apply (nth_element_before errors i j t y).
  - intros j y Hj Hy. by apply (nth_element_after errors i j t y).
Qed.

(** The selected threshold for a percentage in (2^-54, 1]. *)
Lemma setRefineThreshold_rank (p : Qc) (errors : list T) :
  (1 # 2 ^ 54 < p)%Q → (p <= 1)%Q → errors ≠ [] →
  ∃ i t, rankIndex (Fin p) (length errors) = Some i ∧
         (i < length errors)%nat ∧
         setRefineThreshold (Fin p) errors = Some t ∧
         merge_sort Tle errors !! i = Some t.
Proof.
  intros Hp H1 Hne.
  assert (0 < length errors)%nat as Hlen by (destruct errors; [done|simpl; lia]).
  destruct (rankIndex_below p (length errors) Hp H1 Hlen) as (i & Hrank & Hi).
  destruct (setRefineThreshold_inside (Fin p) errors i Hrank Hi) as (t & Hsel & Ht).
  by exists i, t.
Qed.

End Threshold.

(** X1.  For a percentage [p] in [0, 1] and a non-empty error field the rank
    that [setRefineThreshold] computes in [double] is inside the field exactly
    when [p > 2^-54]; the function then returns the element of that rank of
    the field sorted ascending, and for [p = 1] the rank is 0 and the value
    the minimum.  For [p <= 2^-54] the rank is the size of the field and the
    read is past its end. *)
Theorem setRefineThreshold_selects_rank `{!NthElement} (p : Qc) (errors : list T) :
  (0 <= p)%Q → (p <= 1)%Q → errors ≠ [] →
  (p <= 1 # 2 ^ 54 →
     rankIndex (Fin p) (length errors) = Some (length errors) ∧
     setRefineThreshold (Fin p) errors = None)%Q ∧
  (1 # 2 ^ 54 < p →
     ∃ i t, rankIndex (Fin p) (length errors) = Some i ∧
            (i < length errors)%nat ∧
            setRefineThreshold (Fin p) errors = Some t ∧
            merge_sort Tle errors !! i = Some t)%Q ∧
  (p == 1 →
     ∃ t, rankIndex (Fin p) (length errors) = Some 0%nat ∧
          setRefineThreshold (Fin p) errors = Some t ∧
          merge_sort Tle errors !! 0%nat = Some t ∧
          ∀ e, e ∈ errors → Tle t e)%Q.
Proof.
  intros H0 H1 Hne.
  assert (0 < length errors)%nat as Hlen by (destruct errors; [done|simpl; lia]).
  split; [|split].
  - intros Hp. pose proof (rankIndex_tiny p (length errors) H0 Hp) as Hrank.
    split; [done|]. by apply (setRefineThreshold_past_end _ _ _ Hrank).
  - intros Hp. by apply setRefineThreshold_rank.
  - intros Hone. pose proof (rankIndex_one p (length errors) Hone) as Hrank.
    destruct (setRefineThreshold_inside (Fin p) errors 0 Hrank Hlen)
      as (t & Hsel & Ht).
    exists t. split; [done|]. split; [done|]. split; [done|].
    intros e He.
    assert (e ∈ merge_sort Tle errors) as Hin by (by rewrite merge_sort_Permutation).
    apply list_elem_of_lookup in Hin as [k Hk].
    apply (StronglySorted_lookup_le (merge_sort Tle errors) 0 k); [|lia|done..].
    apply StronglySorted_merge_sort; apply _.
Qed.

(** C1, the case [m_ref = 0], which the constructor and [setRefPercentage]
    accept.  The rank [size * (1.0 - 0)] is [size] itself, so [pos] is
    [errorsCopy.end()] and [*pos] reads past the last element: the function
    has no value there, whatever the error field, and does not select the
    maximum. *)
Theorem setRefineThreshold_zero_percentage `{!NthElement} (errors : list T) :
  rankIndex T0 (length errors) = Some (length errors) ∧
  setRefineThreshold T0 errors = None.
Proof.
  pose proof (rankIndex_zero (length errors)) as Hrank.
  split; [done|]. by apply (setRefineThreshold_past_end _ _ _ Hrank).
Qed.

(** * The claims on the refinement driver *)

Section DriverFacts.
Context (d : nat) {B R : Type} `{!HTensorBasis B} `{!Fitting B R} `{!NthElement}.
Implicit Types (st : @gsHFitting B R) (tolerance err_threshold : T).

Lemma sameMembers_refl st : sameMembers st st.
Proof. by repeat split. Qed.

Lemma sameMembers_logCall c st : sameMembers st (logCall c st).
Proof. by repeat split. Qed.

Lemma callsSince_app st st' cs : calls st' = calls st ++ cs → callsSince st st' = cs.
Proof. intros Hcs. unfold callsSince. by rewrite Hcs, drop_app_length. Qed.

Lemma fitAndMeasure_calls st :
  calls (fitAndMeasure st) = calls st ++ [CallCompute (m_lambda st); CallComputeErrors].
Proof.
  unfold fitAndMeasure, doComputeErrors, doCompute. simpl.
  destruct (computeErrors _) as [[errs emax] emin]. simpl.
  by rewrite <- app_assoc.
Qed.

Lemma fitAndMeasure_members st :
  m_basis (fitAndMeasure st) = m_basis st ∧
  m_result (fitAndMeasure st) = Some (compute (m_basis st) (m_lambda st)) ∧
  (m_pointErrors (fitAndMeasure st), m_max_error (fitAndMeasure st),
   m_min_error (fitAndMeasure st))
  = computeErrors (compute (m_basis st) (m_lambda st)) ∧
  m_ref (fitAndMeasure st) = m_ref st ∧ m_lambda (fitAndMeasure st) = m_lambda st ∧
  m_ext (fitAndMeasure st) = m_ext st ∧
  m_param_values (fitAndMeasure st) = m_param_values st.
Proof.
  unfold fitAndMeasure, doComputeErrors, doCompute. simpl.
  by destruct (computeErrors _) as [[errs emax] emin].
Qed.

Lemma selectThreshold_members err_threshold st (t : T) st1 :
  selectThreshold err_threshold st = Some (t, st1) →
  sameMembers st st1 ∧
  (calls st1 = calls st ∨ calls st1 = calls st ++ [CallSetRefineThreshold]).
Proof.
  unfold selectThreshold. destruct (Tleb T0 err_threshold).
  - intros [= <- <-]. split; [apply sameMembers_refl|by left].
  - destruct (setRefineThreshold _ _) as [t'|]; [|done]. simpl.
    intros [= <- <-]. split; [apply sameMembers_logCall|by right].
Qed.

Lemma stBoxes_sameMembers st st' (errors : list T) (t : T) :
  sameMembers st st' → stBoxes d st' errors t = stBoxes d st errors t.
Proof.
  intros (_ & _ & Hext & Hpar & Hbasis & _). unfold stBoxes.
  by rewrite Hext, Hpar, Hbasis.
Qed.

End DriverFacts.

Section DriverClaims.
Context (d : nat) {B R : Type} `{!HTensorBasis B} `{!Fitting B R} `{!NthElement}.
Implicit Types (st : @gsHFitting B R) (tolerance err_threshold : T).

(** C10.  On an object whose error field is empty, [nextIteration] returns
    [true] after exactly one [compute] and one [computeErrors], whatever the
    tolerance and the threshold: no threshold is selected, no box is built
    and the basis is not refined. *)
Theorem nextIteration_first_fit tolerance err_threshold st :
  m_pointErrors st = [] →
  nextIteration d tolerance err_threshold st = Some (true, fitAndMeasure st) ∧
  callsSince st (fitAndMeasure st) = [CallCompute (m_lambda st); CallComputeErrors] ∧
  m_basis (fitAndMeasure st) = m_basis st ∧
  (m_pointErrors (fitAndMeasure st), m_max_error (fitAndMeasure st),
   m_min_error (fitAndMeasure st))
  = computeErrors (compute (m_basis st) (m_lambda st)).
Proof.
  intros Hempty. split.
  - unfold nextIteration. rewrite Hempty. by rewrite decide_False by (simpl; lia).
  - split; [apply callsSince_app, fitAndMeasure_calls|].
    destruct (fitAndMeasure_members st) as (Hb & _ & He & _). by split.
Qed.

(** The threshold selection has no value exactly when the threshold is left
    to a percentage whose rank is past the end of the field: for a percentage
    in [0, 1], when it is at most [2^-54]. *)
Lemma selectThreshold_None_iff (p : Qc) err_threshold st :
  m_pointErrors st ≠ [] → m_ref st = Fin p → (0 <= p)%Q → (p <= 1)%Q →
  selectThreshold err_threshold st = None ↔
  Tleb T0 err_threshold = false ∧ (p <= 1 # 2 ^ 54)%Q.
Proof.
  intros Hne Href H0 H1. unfold selectThreshold. rewrite Href.
  destruct (Tleb T0 err_threshold); [by split; [|intros []]|].
  destruct (Qlt_le_dec (1 # 2 ^ 54) p) as [Hbig|Htiny].
  - destruct (setRefineThreshold_rank p (m_pointErrors st) Hbig H1 Hne)
      as (i & t & _ & _ & -> & _).
    simpl. split; [done|]. intros [_ Hle]. by apply Qlt_not_le in Hbig.
  - rewrite (setRefineThreshold_past_end (Fin p) (m_pointErrors st)
               (length (m_pointErrors st)));
      [done|by apply rankIndex_tiny|done].
Qed.

Lemma nextIteration_defined_step tolerance err_threshold st :
  m_pointErrors st ≠ [] →
  Tle (m_max_error st) tolerance ∨ is_Some (selectThreshold err_threshold st) →
  ∃ (b : bool) st',
    nextIteration d tolerance err_threshold st = Some (b, st') ∧
    (b = false ↔
       Tle (m_max_error st) tolerance ∨
       ∃ t st1, selectThreshold err_threshold st = Some (t, st1) ∧
                stBoxes d st (m_pointErrors st) t = []) ∧
    (b = false →
       sameMembers st st' ∧
       ∃ cs, calls st' = calls st ++ cs ∧ Forall isQuery cs) ∧
    (b = true →
       ∃ t st1 boxes,
         selectThreshold err_threshold st = Some (t, st1) ∧
         boxes = stBoxes d st (m_pointErrors st) t ∧ boxes ≠ [] ∧
         st' = fitAndMeasure (doRefine boxes (logCall (CallGetBoxes t) st1)) ∧
         m_basis st' = refineElements (m_basis st) boxes ∧
         callsSince st1 st'
         = [CallGetBoxes t; CallRefineElements boxes;
            CallCompute (m_lambda st); CallComputeErrors]).
Proof.
  intros Hne Hsel. unfold nextIteration.
  rewrite decide_True by (destruct (m_pointErrors st); [done|simpl; lia]).
  destruct (Tltb tolerance (m_max_error st)) eqn:Hlt.
  - apply Tltb_true_iff in Hlt.
    destruct Hsel as [Hconv|[[t st1] Hst1]]; [done|].
    rewrite Hst1. simpl.
    destruct (selectThreshold_members err_threshold st t st1 Hst1) as [Hsame Hcalls].
    assert (m_pointErrors st1 = m_pointErrors st) as Herrs by apply Hsame.
    rewrite Herrs, (stBoxes_sameMembers d st st1 _ _ Hsame).
    set (boxes := stBoxes d st (m_pointErrors st) t).
    destruct (decide (length boxes = 0%nat)) as [Hzero|Hsome].
    + apply length_zero_iff_nil in Hzero.
      exists false, (logCall (CallGetBoxes t) st1).
      split; [done|]. split; [|split; [|done]].
      * split; [|done]. intros _. right. by exists t, st1.
      * intros _. split.
        { destruct Hsame as (?&?&?&?&?&?&?&?&?). by repeat split. }
        simpl. destruct Hcalls as [->| ->].
        -- exists [CallGetBoxes t]. split; [done|]. by repeat constructor.
        -- exists [CallSetRefineThreshold; CallGetBoxes t].
           split; [by rewrite <- app_assoc|]. by repeat constructor.
    + assert (boxes ≠ []) as Hboxes.
      { intros Hnil. apply Hsome. by rewrite Hnil. }
      exists true, (fitAndMeasure (doRefine boxes (logCall (CallGetBoxes t) st1))).
      split; [done|]. split; [|split; [done|]].
      * split; [done|]. intros [Hconv|(t' & st1' & Heq & Hnil)]; [done|].
        injection Heq as Ht _. subst t'. done.
      * intros _. exists t, st1, boxes.
        split; [done|]. split; [done|]. split; [done|]. split; [done|].
        destruct (fitAndMeasure_members
                    (doRefine boxes (logCall (CallGetBoxes t) st1))) as (Hb & _).
        destruct Hsame as (_ & Hlambda & _ & _ & Hbasis & _).
        split.
        { rewrite Hb. simpl. by rewrite Hbasis. }
        apply callsSince_app. rewrite fitAndMeasure_calls. simpl.
        rewrite <- !app_assoc. simpl. by rewrite Hlambda.
  - apply Tltb_false_iff in Hlt.
    exists false, st. split; [done|]. split; [|split; [|done]].
    + split; [|done]. intros _. by left.
    + intros _. split; [apply sameMembers_refl|].
      exists []. split; [by rewrite app_nil_r|constructor].
Qed.


(** C2.  On an object with a non-empty error field.  Where the maximum error
    is within the tolerance or the threshold selection has a value,
    [nextIteration] returns [false] exactly when the maximum error is at most
    the tolerance or no box is built at the selected threshold; when it
    returns [false] no member has changed (the basis in particular) and only
    reading calls were made; when it returns [true] the boxes were passed to
    [refineElements] once, followed by one fit and one error measurement.
    Where the maximum error exceeds the tolerance and the selection has no
    value, the call returns neither: it ends in the read of
    [setRefineThreshold] past the end of the field.  For a percentage in
    [0, 1] that is the case exactly when the threshold is negative and the
    percentage is at most [2^-54]: the percentage 0 in particular. *)
Theorem nextIteration_stop_or_step tolerance err_threshold st :
  m_pointErrors st ≠ [] →
  (Tle (m_max_error st) tolerance ∨ is_Some (selectThreshold err_threshold st) →
   ∃ (b : bool) st',
     nextIteration d tolerance err_threshold st = Some (b, st') ∧
     (b = false ↔
        Tle (m_max_error st) tolerance ∨
        ∃ t st1, selectThreshold err_threshold st = Some (t, st1) ∧
                 stBoxes d st (m_pointErrors st) t = []) ∧
     (b = false →
        sameMembers st st' ∧
        ∃ cs, calls st' = calls st ++ cs ∧ Forall isQuery cs) ∧
     (b = true →
        ∃ t st1 boxes,
          selectThreshold err_threshold st = Some (t, st1) ∧
          boxes = stBoxes d st (m_pointErrors st) t ∧ boxes ≠ [] ∧
          st' = fitAndMeasure (doRefine boxes (logCall (CallGetBoxes t) st1)) ∧
          m_basis st' = refineElements (m_basis st) boxes ∧
          callsSince st1 st'
          = [CallGetBoxes t; CallRefineElements boxes;
             CallCompute (m_lambda st); CallComputeErrors])) ∧
  (¬ Tle (m_max_error st) tolerance →
   selectThreshold err_threshold st = None →
   nextIteration d tolerance err_threshold st = None) ∧
  (∀ p : Qc, m_ref st = Fin p → (0 <= p)%Q → (p <= 1)%Q →
     selectThreshold err_threshold st = None ↔
     Tleb T0 err_threshold = false ∧ (p <= 1 # 2 ^ 54)%Q).
Proof.
  intros Hne.
  split; [by apply nextIteration_defined_step|]. split.
  - intros Hconv Hsel. unfold nextIteration.
    rewrite decide_True by (destruct (m_pointErrors st); [done|simpl; lia]).
    destruct (Tltb tolerance (m_max_error st)) eqn:Hlt; [by rewrite Hsel|].
    by apply Tltb_false_iff in Hlt.
  - intros p Href H0 H1. by apply selectThreshold_None_iff.
Qed.

End DriverClaims.

Section Loop.
Context (d : nat) {B R : Type} `{!HTensorBasis B} `{!Fitting B R} `{!NthElement}.
Implicit Types (st : @gsHFitting B R) (tolerance err_threshold : T).



(** With a tolerance of +infinity the loop does nothing to an object that
    has an error field. *)
Lemma refineLoop_infinity (n : nat) err_threshold st :
  m_pointErrors st ≠ [] →
  refineLoop d n PInf err_threshold st = Some st.
Proof.
  intros Hne. destruct n as [|n]; [done|]. simpl.
  unfold nextIteration.
  rewrite decide_True by (destruct (m_pointErrors st); [done|simpl; lia]).
  rewrite Tltb_PInf. simpl. by rewrite (Tle_PInf (m_max_error st)).
Qed.

Lemma iterativeRefine_unfitted (numIterations : Z) tolerance err_threshold st :
  m_pointErrors st = [] →
  iterativeRefine d numIterations tolerance err_threshold st
  = refineLoop d (Z.to_nat numIterations) tolerance err_threshold (fitAndMeasure st).
Proof.
  intros Hempty. unfold iterativeRefine. by rewrite Hempty, decide_True by done.
Qed.

Lemma iterativeRefine_fitted (numIterations : Z) tolerance err_threshold st :
  m_pointErrors st ≠ [] →
  iterativeRefine d numIterations tolerance err_threshold st
  = refineLoop d (Z.to_nat numIterations) tolerance err_threshold st.
Proof.
  intros Hne. unfold iterativeRefine.
  by rewrite decide_False by (destruct (m_pointErrors st); [done|simpl; lia]).
Qed.



End Loop.

(** * Further properties of the helpers and of [getBoxes] *)

Lemma foldl_append_concat (cs : list (list Z)) (acc : list Z) :
  foldl append acc cs = acc ++ concat cs.
Proof.
  revert acc. induction cs as [|c cs IH]; intros acc; simpl.
  - by rewrite app_nil_r.
  - by rewrite IH, append_app, <- app_assoc.
Qed.

(** X2.  [append(boxes, box)] leaves the entries of [boxes] in place and adds
    those of [box] after them, in order. *)
Theorem append_concatenates (boxes box : list Z) :
  append boxes box = boxes ++ box ∧
  length (append boxes box) = (length boxes + length box)%nat ∧
  (∀ i, (i < length boxes)%nat → append boxes box !! i = boxes !! i) ∧
  (∀ j, append boxes box !! (length boxes + j)%nat = box !! j).
Proof.
  rewrite append_app. split; [done|]. split; [apply length_app|]. split.
  - intros i Hi. by apply lookup_app_l.
  - intros j. rewrite lookup_app_r by lia. f_equal. lia.
Qed.

(** X3.  After the cells [cs], all of as many entries as [a_cell] (at least
    one), were stored one after the other with [append],
    [isCellAlreadyInserted(a_cell, cells)] answers [true] exactly when
    [a_cell] is one of them; on an empty container it answers [false]. *)
Theorem isCellAlreadyInserted_member (a_cell : list Z) (cs : list (list Z)) :
  (0 < length a_cell)%nat →
  Forall (λ c, length c = length a_cell) cs →
  (isCellAlreadyInserted a_cell (foldl append [] cs) = true ↔ a_cell ∈ cs) ∧
  isCellAlreadyInserted a_cell (append (foldl append [] cs) a_cell) = true ∧
  isCellAlreadyInserted a_cell [] = false.
Proof.
  intros Hd Hcs. rewrite append_app, foldl_append_concat. simpl.
  split; [|split; [|done]].
  - rewrite isCellAlreadyInserted_spec by done. apply bool_decide_eq_true.
  - replace (concat cs ++ a_cell) with (concat (cs ++ [a_cell])).
    2:{ rewrite concat_app. simpl. by rewrite app_nil_r. }
    rewrite isCellAlreadyInserted_spec; [|done|].
    + apply bool_decide_eq_true. apply elem_of_app. right. by left.
    + apply Forall_app. split; [done|]. by apply Forall_singleton.
Qed.

Lemma flaggedFrom_length (errors : list T) (threshold : T) (i : nat) :
  (length (flaggedFrom i errors threshold) ≤ length errors)%nat.
Proof.
  revert i. induction errors as [|e es IH]; intros i; simpl; [done|].
  destruct (Tleb threshold e); simpl; specialize (IH (S i)); lia.
Qed.

Section MoreScan.
Context (d : nat) {B : Type} `{!HTensorBasis B}.
Context (basis : B) (m_param_values : nat → nat → T).

Lemma isCellAlreadyInserted_empty (a_cell : list Z) :
  isCellAlreadyInserted a_cell [] = false.
Proof. done. Qed.

Lemma keptCells_nil_iff (idxs : list nat) :
  keptCells d basis m_param_values idxs [] = [] ↔ idxs = [].
Proof.
  destruct idxs as [|index idxs]; [done|]. cbn [keptCells]. cbv zeta.
  rewrite isCellAlreadyInserted_empty. done.
Qed.

(** Without a direction every cell is the empty tuple and nothing is ever
    found in the container. *)
Lemma keptCells_no_direction (idxs : list nat) :
  d = 0%nat →
  keptCells d basis m_param_values idxs [] = cellOf d basis m_param_values <$> idxs.
Proof.
  intros ->. induction idxs as [|index idxs IH]; [done|].
  cbn [keptCells]. cbv zeta. rewrite isCellAlreadyInserted_empty.
  rewrite fmap_cons. f_equal. exact IH.
Qed.

(** Every cell of the scanned samples gets its box. *)
Lemma keptCells_elem_of_iff (idxs : list nat) (c : list Z) :
  c ∈ keptCells d basis m_param_values idxs [] ↔
  c ∈ cellOf d basis m_param_values <$> idxs.
Proof.
  destruct (decide (d = 0%nat)) as [Hd|Hd].
  - by rewrite keptCells_no_direction.
  - rewrite (keptCells_keepNew d basis m_param_values idxs []) by (done || lia).
    apply keepNew_nil_elem_of.
Qed.

End MoreScan.

Lemma concat_nil_iff {A : Type} (ls : list (list A)) :
  Forall (λ l, l ≠ []) ls → (concat ls = [] ↔ ls = []).
Proof.
  intros Hls. split; [|by intros ->].
  destruct Hls as [|l ls Hl _]; [done|]. simpl.
  intros Happ. apply app_eq_nil in Happ as [? _]. done.
Qed.

Lemma fmap_nil_iff {A C : Type} (f : A → C) (l : list A) :
  f <$> l = [] ↔ l = [].
Proof. by destruct l. Qed.

Lemma flagged_nil_iff (errors : list T) (threshold : T) :
  flagged errors threshold = [] ↔ ∀ e, e ∈ errors → ¬ Tle threshold e.
Proof.
  split.
  - intros Hnil e He Hle.
    apply list_elem_of_lookup in He as [index Hindex].
    assert (index ∈ flagged errors threshold) as Hin.
    { apply flagged_spec. by exists e. }
    rewrite Hnil in Hin. by apply elem_of_nil in Hin.
  - intros Hnone. destruct (flagged errors threshold) as [|index l] eqn:Hf; [done|].
    assert (index ∈ flagged errors threshold) as Hin by (rewrite Hf; by left).
    apply flagged_spec in Hin as (e & He & Hle).
    exfalso. apply (Hnone e); [|done]. by eapply list_elem_of_lookup_2.
Qed.

Lemma getBoxes_nil_iff (d : nat) {B : Type} `{!HTensorBasis B} (basis : B)
    (m_ext : list Z) (m_param_values : nat → nat → T)
    (errors : list T) (threshold : T) :
  getBoxes d basis m_ext m_param_values errors threshold = [] ↔
  ∀ e, e ∈ errors → ¬ Tle threshold e.
Proof.
  rewrite getBoxes_kept, concat_nil_iff.
  2:{ apply Forall_fmap, Forall_forall. intros c _ Hnil.
      apply (f_equal length) in Hnil. rewrite boxRecord_length in Hnil.
      simpl in Hnil. lia. }
  by rewrite fmap_nil_iff, keptCells_nil_iff, flagged_nil_iff.
Qed.

Lemma getBoxes_length_whole (d : nat) {B : Type} `{!HTensorBasis B} (basis : B)
    (m_ext : list Z) (m_param_values : nat → nat → T)
    (errors : list T) (threshold : T) :
  let boxes := getBoxes d basis m_ext m_param_values errors threshold in
  length boxes = (length (boxesOf d boxes) * (2 * d + 1))%nat.
Proof.
  cbv zeta. rewrite boxesOf_getBoxes, getBoxes_kept.
  rewrite (length_concat_uniform (2 * d + 1)); [by rewrite length_fmap|].
  apply Forall_fmap, Forall_forall. intros c _. apply boxRecord_length.
Qed.

(** X4.  [getBoxes(errors, threshold)] returns the empty vector exactly when
    no error reaches the threshold; so it does on an empty error field. *)
Theorem getBoxes_empty_iff (d : nat) {B : Type} `{!HTensorBasis B} (basis : B)
    (m_ext : list Z) (m_param_values : nat → nat → T)
    (errors : list T) (threshold : T) :
  (getBoxes d basis m_ext m_param_values errors threshold = [] ↔
   ∀ e, e ∈ errors → Tleb threshold e = false) ∧
  getBoxes d basis m_ext m_param_values [] threshold = [].
Proof.
  split; [|done].
  rewrite getBoxes_nil_iff.
  split; intros Hnone e He; specialize (Hnone e He); unfold Tle in *;
    by destruct (Tleb threshold e).
Qed.

(** X5.  The vector returned by [getBoxes] holds whole records of
    [2 d + 1] entries, at most one per flagged sample and so at most one per
    sample, and every entry is an [unsigned] value. *)
Theorem getBoxes_size (d : nat) {B : Type} `{!HTensorBasis B} (basis : B)
    (m_ext : list Z) (m_param_values : nat → nat → T)
    (errors : list T) (threshold : T) :
  let boxes := getBoxes d basis m_ext m_param_values errors threshold in
  length boxes = (length (boxesOf d boxes) * (2 * d + 1))%nat ∧
  (length (boxesOf d boxes) ≤ length (flagged errors threshold))%nat ∧
  (length (flagged errors threshold) ≤ length errors)%nat ∧
  Forall is_unsigned boxes.
Proof.
  intros boxes. unfold boxes.
  split; [apply getBoxes_length_whole|].
  rewrite boxesOf_getBoxes, getBoxes_kept.
  set (cs := keptCells d basis m_param_values (flagged errors threshold) []).
  split.
  { rewrite length_fmap.
    pose proof (keptCells_sublist d basis m_param_values
                  (flagged errors threshold) []) as Hsub.
    apply sublist_length in Hsub. by rewrite length_fmap in Hsub. }
  split; [apply flaggedFrom_length|].
  apply Forall_concat. apply Forall_fmap, Forall_forall. intros c _. simpl.
  unfold boxRecord. apply Forall_cons. split; [apply wrap_range|].
  apply Forall_app. split; apply Forall_fmap, Forall_forall; intros dim _;
    unfold compose.
  - unfold boxLow, lowBound. destruct (Z.ltb _ _); [apply wrap_range|].
    unfold is_unsigned. lia.
  - unfold boxUpp, uppBound, maxUpper. destruct (Z.ltb _ _); apply wrap_range.
Qed.

(** X6.  Lowering the threshold loses no box: every box returned for a
    threshold is also returned for any smaller threshold. *)
Theorem getBoxes_threshold_antitone (d : nat) {B : Type} `{!HTensorBasis B}
    (basis : B) (m_ext : list Z) (m_param_values : nat → nat → T)
    (errors : list T) (threshold threshold' : T) (box : list Z) :
  Tleb threshold' threshold = true →
  box ∈ boxesOf d (getBoxes d basis m_ext m_param_values errors threshold) →
  box ∈ boxesOf d (getBoxes d basis m_ext m_param_values errors threshold').
Proof.
  intros Hle. rewrite !boxesOf_getBoxes, !list_elem_of_fmap.
  intros (c & -> & Hc). exists c. split; [done|].
  apply keptCells_elem_of_iff. apply keptCells_elem_of_iff in Hc.
  apply list_elem_of_fmap in Hc as (index & -> & Hindex).
  apply list_elem_of_fmap. exists index. split; [done|].
  apply flagged_spec in Hindex as (e & He & Hthr).
  apply flagged_spec. exists e. split; [done|].
  by apply Tle_trans with threshold.
Qed.

Lemma boxesOf_elem_of (d : nat) {B : Type} `{!HTensorBasis B} (basis : B)
    (m_ext : list Z) (m_param_values : nat → nat → T)
    (errors : list T) (threshold : T) (box : list Z) :
  box ∈ boxesOf d (getBoxes d basis m_ext m_param_values errors threshold) ↔
  ∃ index, index ∈ flagged errors threshold ∧
           box = makeBox d basis m_ext (cellOf d basis m_param_values index).
Proof.
  rewrite boxesOf_getBoxes, list_elem_of_fmap. split.
  - intros (c & -> & Hc). apply keptCells_elem_of_iff in Hc.
    apply list_elem_of_fmap in Hc as (index & -> & Hindex).
    exists index. by rewrite makeBox_record.
  - intros (index & Hindex & ->).
    exists (cellOf d basis m_param_values index). split; [apply makeBox_record|].
    apply keptCells_elem_of_iff, list_elem_of_fmap. by exists index.
Qed.

(** X7.  Whatever the margin, also when [index + margin + 1] wraps around:
    in every box of [getBoxes] and every direction the upper bound is at
    most [numBreaks - 1] as an [unsigned] and the lower bound is at most the
    index of the cell at the level of the box. *)
Theorem getBoxes_bounds_never_outside (d : nat) {B : Type} `{!HTensorBasis B}
    (basis : B) (m_ext : list Z) (m_param_values : nat → nat → T)
    (errors : list T) (threshold : T) (box : list Z) :
  Forall is_unsigned m_ext →
  box ∈ boxesOf d (getBoxes d basis m_ext m_param_values errors threshold) →
  ∃ index, index ∈ flagged errors threshold ∧
    let c := cellOf d basis m_param_values index in
    ∀ dim, (dim < d)%nat →
      ∃ low upp,
        box !! (1 + dim)%nat = Some low ∧ box !! (1 + d + dim)%nat = Some upp ∧
        0 <= low ∧ low <= indexAtLevel basis c dim ∧
        upp <= (numBreaks basis (cellLevel basis c) dim - 1) mod 2 ^ 32.
Proof.
  intros Hext Hbox. apply boxesOf_elem_of in Hbox as (index & Hindex & ->).
  exists index. split; [done|]. intros c dim Hdim.
  exists (boxLow basis m_ext c dim), (boxUpp basis m_ext c dim).
  split; [by apply makeBox_lookup_low|]. split; [by apply makeBox_lookup_upp|].
  pose proof (indexAtLevel_unsigned d basis (m_param_values index) dim) as Hidx.
  fold (cellOf d basis m_param_values index) in Hidx. fold c in Hidx.
  pose proof (default_lookup_unsigned m_ext dim Hext) as He.
  unfold is_unsigned in Hidx, He.
  unfold boxLow, boxUpp, lowBound, uppBound, maxUpper.
  fold (wrap (numBreaks basis (cellLevel basis c) dim - 1)).
  set (idx := indexAtLevel basis c dim) in *.
  set (ext := default 0 (m_ext !! dim)) in *.
  destruct (Z.ltb_spec ext idx).
  - rewrite (wrap_small (idx - ext)) by (unfold is_unsigned; lia).
    destruct (Z.ltb_spec (wrap (idx + ext + 1))
                (wrap (numBreaks basis (cellLevel basis c) dim - 1))); lia.
  - destruct (Z.ltb_spec (wrap (idx + ext + 1))
                (wrap (numBreaks basis (cellLevel basis c) dim - 1))); lia.
Qed.

(** X8.  When [index + margin + 1] fits [unsigned] and the index of the cell
    is below [numBreaks - 1] at the level of the box, every box of
    [getBoxes] covers, in every direction, the cell it was built for:
    [low <= index < upp]. *)
Theorem getBoxes_box_covers_cell (d : nat) {B : Type} `{!HTensorBasis B}
    (basis : B) (m_ext : list Z) (m_param_values : nat → nat → T)
    (errors : list T) (threshold : T) (box : list Z) :
  Forall is_unsigned m_ext →
  (∀ index dim, index ∈ flagged errors threshold → (dim < d)%nat →
     let c := cellOf d basis m_param_values index in
     indexAtLevel basis c dim + default 0 (m_ext !! dim) + 1 < 2 ^ 32 ∧
     indexAtLevel basis c dim < maxUpper basis c dim) →
  box ∈ boxesOf d (getBoxes d basis m_ext m_param_values errors threshold) →
  ∃ index, index ∈ flagged errors threshold ∧
    let c := cellOf d basis m_param_values index in
    ∀ dim, (dim < d)%nat →
      ∃ low upp,
        box !! (1 + dim)%nat = Some low ∧ box !! (1 + d + dim)%nat = Some upp ∧
        low <= indexAtLevel basis c dim ∧ indexAtLevel basis c dim < upp.
Proof.
  intros Hext Hfit Hbox. apply boxesOf_elem_of in Hbox as (index & Hindex & ->).
  exists index. split; [done|]. intros c dim Hdim.
  destruct (Hfit index dim Hindex Hdim) as [Hsum Hlast]. fold c in Hsum, Hlast.
  exists (boxLow basis m_ext c dim), (boxUpp basis m_ext c dim).
  split; [by apply makeBox_lookup_low|]. split; [by apply makeBox_lookup_upp|].
  pose proof (indexAtLevel_unsigned d basis (m_param_values index) dim) as Hidx.
  fold (cellOf d basis m_param_values index) in Hidx. fold c in Hidx.
  pose proof (default_lookup_unsigned m_ext dim Hext) as He.
  unfold is_unsigned in Hidx, He.
  unfold boxLow, boxUpp.
  rewrite lowBound_max by (unfold is_unsigned; lia).
  rewrite uppBound_min by lia. lia.
Qed.

Lemma flaggedFrom_all (errors : list T) (threshold : T) (i : nat) :
  (∀ e, e ∈ errors → Tle threshold e) →
  flaggedFrom i errors threshold = seq i (length errors).
Proof.
  revert i. induction errors as [|e es IH]; intros i Hall; [done|]. simpl.
  assert (Tleb threshold e = true) as -> by (apply Hall; by left).
  f_equal. apply IH. intros e' He'. apply Hall. by right.
Qed.

(** X9.  A threshold of 0 is global refinement: when no error is negative,
    every sample is flagged and the box of every sample's cell is
    returned. *)
Theorem getBoxes_zero_threshold (d : nat) {B : Type} `{!HTensorBasis B}
    (basis : B) (m_ext : list Z) (m_param_values : nat → nat → T)
    (errors : list T) :
  (∀ e, e ∈ errors → Tleb T0 e = true) →
  flagged errors T0 = seq 0 (length errors) ∧
  ∀ index, (index < length errors)%nat →
    makeBox d basis m_ext (cellOf d basis m_param_values index)
    ∈ boxesOf d (getBoxes d basis m_ext m_param_values errors T0).
Proof.
  intros Hall.
  assert (flagged errors T0 = seq 0 (length errors)) as Hflag
    by (by apply flaggedFrom_all).
  split; [done|]. intros index Hindex.
  apply boxesOf_elem_of. exists index. split; [|done].
  rewrite Hflag. apply elem_of_seq. lia.
Qed.

(** * Further properties of the threshold selector and of the driver *)

Lemma flaggedFrom_length_filter (errors : list T) (threshold : T) (i : nat) :
  length (flaggedFrom i errors threshold) = length (filter (Tle threshold) errors).
Proof.
  revert i. induction errors as [|e es IH]; intros i; [done|].
  cbn [flaggedFrom]. rewrite filter_cons.
  destruct (decide (Tle threshold e)) as [He|He].
  - unfold Tle in He. rewrite He. simpl. by rewrite IH.
  - assert (Tleb threshold e = false) as ->
      by (unfold Tle in He; by destruct (Tleb threshold e)).
    apply IH.
Qed.

Lemma filter_length_from {A : Type} (P : A → Prop) `{!∀ x, Decision (P x)}
    (l : list A) (n : nat) :
  Forall P (drop n l) → (length l - n ≤ length (filter P l))%nat.
Proof.
  intros Hdrop. rewrite <- (take_drop n l) at 2.
  rewrite filter_app, length_app, (filter_all P _ Hdrop), length_drop. lia.
Qed.

(** X10.  For a percentage [p] in (2^-54, 1] the threshold that
    [setRefineThreshold] selects is one of the errors, and at least [N - i]
    samples, so at least one, have an error that reaches it, where [i] is
    the rank computed from [p]. *)
Theorem setRefineThreshold_flags_enough `{!NthElement} (p : Qc) (errors : list T) :
  (1 # 2 ^ 54 < p)%Q → (p <= 1)%Q → errors ≠ [] →
  ∃ i t, rankIndex (Fin p) (length errors) = Some i ∧
         setRefineThreshold (Fin p) errors = Some t ∧
         t ∈ errors ∧
         (length errors - i ≤ length (flagged errors t))%nat ∧
         (1 ≤ length (flagged errors t))%nat.
Proof.
  intros H0 H1 Hne.
  destruct (setRefineThreshold_rank p errors H0 H1 Hne)
    as (i & t & Hi & Hlt & Hsel & Hrank).
  set (s := merge_sort Tle errors) in *.
  assert (s ≡ₚ errors) as Hperm by apply merge_sort_Permutation.
  assert (StronglySorted Tle s) as Hsorted
    by (apply StronglySorted_merge_sort; apply _).
  exists i, t. split; [done|]. split; [done|]. split.
  { rewrite <- Hperm. by eapply list_elem_of_lookup_2. }
  assert (length errors - i ≤ length (flagged errors t))%nat as Hcount.
  { unfold flagged. rewrite flaggedFrom_length_filter, <- Hperm.
    replace (length errors) with (length s) by (by rewrite Hperm).
    apply filter_length_from. apply Forall_lookup. intros j e He.
    rewrite lookup_drop in He.
    apply (StronglySorted_lookup_le s i (i + j)); [done|lia|done..]. }
  split; [done|lia].
Qed.

Lemma countFits_app (cs cs' : list call) :
  countFits (cs ++ cs') = (countFits cs + countFits cs')%nat.
Proof.
  induction cs as [|c cs IH]; [done|]. destruct c; simpl; by rewrite ?IH.
Qed.

Lemma countRefines_app (cs cs' : list call) :
  countRefines (cs ++ cs') = (countRefines cs + countRefines cs')%nat.
Proof.
  induction cs as [|c cs IH]; [done|]. destruct c; simpl; by rewrite ?IH.
Qed.

Section MoreDriver.
Context (d : nat) {B R : Type} `{!HTensorBasis B} `{!Fitting B R} `{!NthElement}.
Implicit Types (st : @gsHFitting B R) (tolerance err_threshold : T).

Lemma stBoxes_whole st (errors : list T) (t : T) :
  stBoxes d st errors t ≠ [] → wholeBoxes d (CallRefineElements (stBoxes d st errors t)).
Proof.
  intros Hne. split; [done|]. unfold stBoxes.
  eexists.
  apply (getBoxes_length_whole d (m_basis st) (m_ext st) (m_param_values st) errors t).
Qed.

(** What one call of [nextIteration] does to the object. *)
Lemma nextIteration_step tolerance err_threshold st (b : bool) st' :
  nextIteration d tolerance err_threshold st = Some (b, st') →
  sameConfig st st' ∧
  ∃ cs, calls st' = calls st ++ cs ∧
        (countRefines cs ≤ countFits cs)%nat ∧ (countFits cs ≤ 1)%nat ∧
        Forall (wholeBoxes d) cs ∧
        (b = false → countFits cs = 0%nat) ∧
        (countRefines cs = 0%nat → m_basis st' = m_basis st) ∧
        (countFits cs = 0%nat →
           m_result st' = m_result st ∧ m_pointErrors st' = m_pointErrors st ∧
           m_max_error st' = m_max_error st ∧ m_min_error st' = m_min_error st) ∧
        (countFits cs = 1%nat →
           m_result st' = Some (compute (m_basis st') (m_lambda st')) ∧
           (m_pointErrors st', m_max_error st', m_min_error st')
           = computeErrors (compute (m_basis st') (m_lambda st'))).
Proof.
  unfold nextIteration.
  destruct (decide _) as [Hne|Hempty].
  - destruct (Tltb tolerance (m_max_error st)).
    + destruct (selectThreshold err_threshold st) as [[t st1]|] eqn:Hst1; [|done].
      simpl.
      destruct (selectThreshold_members err_threshold st t st1 Hst1)
        as [Hsame Hcalls].
      destruct Hsame as (Href & Hlam & Hext & Hpar & Hbas & Hres & Herr & Hmax & Hmin).
      assert (∃ cs1, calls st1 = calls st ++ cs1 ∧ countFits cs1 = 0%nat ∧
                     countRefines cs1 = 0%nat ∧ Forall (wholeBoxes d) cs1)
        as (cs1 & Hcs1 & Hf1 & Hr1 & Hw1).
      { destruct Hcalls as [->| ->].
        - exists []. by rewrite app_nil_r.
        - exists [CallSetRefineThreshold]. repeat split; by repeat constructor. }
      set (boxes := stBoxes d st1 (m_pointErrors st1) t).
      destruct (decide (length boxes = 0%nat)) as [Hzero|Hsome].
      * intros [= <- <-]. split; [by repeat split|].
        exists (cs1 ++ [CallGetBoxes t]). simpl.
        rewrite Hcs1, <- app_assoc, countFits_app, countRefines_app. simpl.
        split; [done|]. split; [lia|]. split; [lia|].
        split; [apply Forall_app; split; [done|by repeat constructor]|].
        split; [lia|]. split; [done|]. split; [done|]. lia.
      * intros [= <- <-].
        destruct (fitAndMeasure_members
                    (doRefine boxes (logCall (CallGetBoxes t) st1)))
          as (Hb & Hr & He & Hre & Hla & Hex & Hpa).
        split.
        { unfold sameConfig. rewrite Hre, Hla, Hex, Hpa. simpl. by repeat split. }
        exists (cs1 ++ [CallGetBoxes t; CallRefineElements boxes;
                        CallCompute (m_lambda st1); CallComputeErrors]).
        rewrite fitAndMeasure_calls. simpl.
        rewrite Hcs1, <- !app_assoc, countFits_app, countRefines_app. simpl.
        split; [done|]. split; [lia|]. split; [lia|].
        split.
        { apply Forall_app. split; [done|].
          apply Forall_cons. split; [exact I|].
          apply Forall_cons. split; [|by repeat constructor].
          apply stBoxes_whole.
          intros Hnil. apply Hsome. fold boxes in Hnil. by rewrite Hnil. }
        split; [done|]. split; [lia|]. split; [lia|].
        intros _. rewrite Hla, Hb. split; [exact Hr|exact He].
    + intros [= <- <-]. split; [by repeat split|].
      exists []. rewrite app_nil_r. simpl.
      split; [done|]. split; [lia|]. split; [lia|]. split; [constructor|].
      split; [done|]. split; [done|]. split; [done|]. lia.
  - intros [= <- <-].
    destruct (fitAndMeasure_members st) as (Hb & Hr & He & Hre & Hla & Hex & Hpa).
    split; [by repeat split|].
    exists [CallCompute (m_lambda st); CallComputeErrors].
    split; [apply fitAndMeasure_calls|]. simpl.
    split; [lia|]. split; [lia|]. split; [by repeat constructor|].
    split; [done|]. split; [done|]. split; [lia|].
    intros _. rewrite Hla, Hb. split; [exact Hr|exact He].
Qed.

End MoreDriver.

Section MoreLoop.
Context (d : nat) {B R : Type} `{!HTensorBasis B} `{!Fitting B R} `{!NthElement}.
Implicit Types (st : @gsHFitting B R) (tolerance err_threshold : T).

Lemma sameConfig_trans st st1 st2 :
  sameConfig st st1 → sameConfig st1 st2 → sameConfig st st2.
Proof.
  intros (H1 & H2 & H3 & H4) (H1' & H2' & H3' & H4').
  unfold sameConfig. by rewrite H1', H2', H3', H4'.
Qed.

Lemma refineLoop_facts (n : nat) tolerance err_threshold st st' :
  refineLoop d n tolerance err_threshold st = Some st' →
  sameConfig st st' ∧
  ∃ cs, calls st' = calls st ++ cs ∧
        (countRefines cs ≤ countFits cs)%nat ∧ (countFits cs ≤ n)%nat ∧
        Forall (wholeBoxes d) cs ∧
        (countRefines cs = 0%nat → m_basis st' = m_basis st).
Proof.
  revert st. induction n as [|n IH]; intros st; simpl.
  - intros [= <-]. split; [by repeat split|].
    exists []. rewrite app_nil_r. simpl. repeat split; (done || lia || constructor).
  - destruct (nextIteration d tolerance err_threshold st) as [[b st1]|] eqn:Hnext;
      [|done].
    simpl.
    destruct (nextIteration_step d _ _ _ _ _ Hnext)
      as (Hcfg & cs1 & Hcs1 & Hrf & Hf1 & Hw1 & _ & Hbas & _).
    assert (sameConfig st st1 ∧
            ∃ cs, calls st1 = calls st ++ cs ∧
                  (countRefines cs ≤ countFits cs)%nat ∧ (countFits cs ≤ S n)%nat ∧
                  Forall (wholeBoxes d) cs ∧
                  (countRefines cs = 0%nat → m_basis st1 = m_basis st)) as Hstop.
    { split; [done|]. exists cs1. repeat split; (done || lia). }
    destruct (Tleb (m_max_error st1) tolerance); [by intros [= <-]|].
    destruct (negb b); [by intros [= <-]|].
    intros Hrest.
    destruct (IH st1 Hrest) as (Hcfg2 & cs2 & Hcs2 & Hrf2 & Hf2 & Hw2 & Hbas2).
    split; [by apply sameConfig_trans with st1|].
    exists (cs1 ++ cs2).
    rewrite Hcs2, Hcs1, <- app_assoc, countFits_app, countRefines_app.
    split; [done|]. split; [lia|]. split; [lia|].
    split; [by apply Forall_app|].
    intros Hzero. rewrite Hbas2 by lia. apply Hbas. lia.
Qed.

Lemma iterativeRefine_facts (numIterations : Z) tolerance err_threshold st st' :
  iterativeRefine d numIterations tolerance err_threshold st = Some st' →
  sameConfig st st' ∧
  ∃ cs, calls st' = calls st ++ cs ∧
        (countRefines cs ≤ countFits cs)%nat ∧
        (countRefines cs ≤ Z.to_nat numIterations)%nat ∧
        (countFits cs ≤ Z.to_nat numIterations + 1)%nat ∧
        (m_pointErrors st ≠ [] → countFits cs ≤ Z.to_nat numIterations)%nat ∧
        Forall (wholeBoxes d) cs ∧
        (countRefines cs = 0%nat → m_basis st' = m_basis st).
Proof.
  destruct (m_pointErrors st) as [|e es] eqn:Herr.
  - rewrite iterativeRefine_unfitted by done. intros Hloop.
    destruct (refineLoop_facts _ _ _ _ _ Hloop)
      as (Hcfg & cs & Hcs & Hrf & Hf & Hw & Hbas).
    destruct (fitAndMeasure_members st) as (Hb & _ & _ & Hre & Hla & Hex & Hpa).
    split.
    { destruct Hcfg as (H1 & H2 & H3 & H4). unfold sameConfig.
      by rewrite H1, H2, H3, H4. }
    exists ([CallCompute (m_lambda st); CallComputeErrors] ++ cs).
    rewrite Hcs, fitAndMeasure_calls, <- app_assoc, countFits_app, countRefines_app.
    simpl. split; [done|]. split; [lia|]. split; [lia|]. split; [lia|].
    split; [done|]. split; [by repeat constructor|].
    intros Hzero. by rewrite Hbas, Hb.
  - rewrite iterativeRefine_fitted by (by rewrite Herr). intros Hloop.
    destruct (refineLoop_facts _ _ _ _ _ Hloop)
      as (Hcfg & cs & Hcs & Hrf & Hf & Hw & Hbas).
    split; [done|]. exists cs. repeat split; (done || lia).
Qed.

(** X11.  [iterativeRefine] makes at most [numIterations] refinements and at
    most one fit more than that (at most [numIterations] fits on an object
    that already has an error field), never more refinements than fits. *)
Theorem iterativeRefine_budget (numIterations : Z) tolerance err_threshold st st' :
  iterativeRefine d numIterations tolerance err_threshold st = Some st' →
  let cs := callsSince st st' in
  (countRefines cs ≤ Z.to_nat numIterations)%nat ∧
  (countFits cs ≤ Z.to_nat numIterations + 1)%nat ∧
  (m_pointErrors st ≠ [] → countFits cs ≤ Z.to_nat numIterations)%nat ∧
  (countRefines cs ≤ countFits cs)%nat.
Proof.
  intros Hrun cs.
  destruct (iterativeRefine_facts _ _ _ _ _ Hrun)
    as (_ & cs' & Hcs & Hrf & Hr & Hf & Hf' & _).
  assert (cs = cs') as -> by (by apply callsSince_app).
  split; [done|]. split; [done|]. split; done.
Qed.

(** X12.  [iterativeRefine] never changes the refinement percentage, the
    smoothing parameter, the extension or the parameter values; it only adds
    to the log of calls; every vector it passes to [refineElements] is a
    non-empty sequence of whole records; and when it refines nothing the basis
    is the one it started with. *)
Theorem iterativeRefine_frame (numIterations : Z) tolerance err_threshold st st' :
  iterativeRefine d numIterations tolerance err_threshold st = Some st' →
  sameConfig st st' ∧
  calls st' = calls st ++ callsSince st st' ∧
  Forall (wholeBoxes d) (callsSince st st') ∧
  (countRefines (callsSince st st') = 0%nat → m_basis st' = m_basis st).
Proof.
  intros Hrun.
  destruct (iterativeRefine_facts _ _ _ _ _ Hrun)
    as (Hcfg & cs & Hcs & _ & _ & _ & _ & Hw & Hbas).
  rewrite (callsSince_app st st' cs Hcs).
  split; [done|]. split; [done|]. split; done.
Qed.

Lemma nextIteration_returns tolerance err_threshold st :
  Tleb T0 err_threshold = true ∨
    (∃ p : Qc, m_ref st = Fin p ∧ (1 # 2 ^ 54 < p)%Q ∧ (p <= 1)%Q) →
  ∃ (b : bool) st', nextIteration d tolerance err_threshold st = Some (b, st').
Proof.
  intros Hok. unfold nextIteration.
  destruct (decide _) as [Hne|Hempty]; [|by eexists _, _].
  destruct (Tltb tolerance (m_max_error st)); [|by eexists _, _].
  assert (∃ t st1, selectThreshold err_threshold st = Some (t, st1))
    as (t & st1 & ->).
  { unfold selectThreshold. destruct Hok as [-> |(p & Hp & H0 & H1)].
    - by eexists _, _.
    - destruct (Tleb T0 err_threshold); [by eexists _, _|].
      destruct (setRefineThreshold_rank p (m_pointErrors st) H0 H1)
        as (i & t & _ & _ & Ht & _).
      { intros Hnil. by rewrite Hnil in Hne. }
      rewrite Hp, Ht. simpl. by eexists _, _. }
  simpl. destruct (decide _); by eexists _, _.
Qed.

Lemma refineLoop_returns (n : nat) tolerance err_threshold st :
  Tleb T0 err_threshold = true ∨
    (∃ p : Qc, m_ref st = Fin p ∧ (1 # 2 ^ 54 < p)%Q ∧ (p <= 1)%Q) →
  ∃ st', refineLoop d n tolerance err_threshold st = Some st'.
Proof.
  revert st. induction n as [|n IH]; intros st Hok; simpl; [by eexists|].
  destruct (nextIteration_returns tolerance err_threshold st Hok)
    as (b & st1 & Hnext).
  rewrite Hnext. simpl.
  destruct (Tleb (m_max_error st1) tolerance); [by eexists|].
  destruct (negb b); [by eexists|].
  apply IH.
  destruct (nextIteration_step d _ _ _ _ _ Hnext) as ((Href & _) & _).
  destruct Hok as [?|(p & Hp & ?)]; [by left|right].
  exists p. by rewrite Href.
Qed.

(** X13.  With an explicit threshold ([err_threshold >= 0]), or with a
    refinement percentage in (2^-54, 1], [iterativeRefine] and [nextIteration]
    run to their end: no read outside the error field is reached, whatever
    the budget, the tolerance and the collaborators. *)
Theorem iterativeRefine_returns (numIterations : Z) tolerance err_threshold st :
  Tleb T0 err_threshold = true ∨
    (∃ p : Qc, m_ref st = Fin p ∧ (1 # 2 ^ 54 < p)%Q ∧ (p <= 1)%Q) →
  (∃ st', iterativeRefine d numIterations tolerance err_threshold st = Some st') ∧
  (∃ (b : bool) st', nextIteration d tolerance err_threshold st = Some (b, st')).
Proof.
  intros Hok. split; [|by apply nextIteration_returns].
  unfold iterativeRefine. cbv zeta.
  destruct (decide _); [|by apply refineLoop_returns].
  apply refineLoop_returns.
  destruct (fitAndMeasure_members st) as (_ & _ & _ & Href & _).
  destruct Hok as [?|(p & Hp & ?)]; [by left|right].
  exists p. by rewrite Href.
Qed.

(** X14.  On an object that has an error field, [iterativeRefine] does
    nothing at all when the maximum error is already within the tolerance, or
    when the budget is zero or negative; in the first case [nextIteration]
    returns [false] and leaves the object as it is.  This holds whatever the
    threshold and the refinement percentage. *)
Theorem iterativeRefine_nothing_to_do (numIterations : Z) tolerance err_threshold st :
  m_pointErrors st ≠ [] →
  (Tleb (m_max_error st) tolerance = true →
     nextIteration d tolerance err_threshold st = Some (false, st) ∧
     iterativeRefine d numIterations tolerance err_threshold st = Some st) ∧
  (numIterations <= 0 →
     iterativeRefine d numIterations tolerance err_threshold st = Some st).
Proof.
  intros Hne.
  assert (length (m_pointErrors st) ≠ 0%nat) as Hlen
    by (destruct (m_pointErrors st); [done|simpl; lia]).
  split.
  - intros Hconv.
    assert (nextIteration d tolerance err_threshold st = Some (false, st)) as Hnext.
    { unfold nextIteration. rewrite decide_True by done.
      by rewrite (proj2 (Tltb_false_iff tolerance (m_max_error st)) Hconv). }
    split; [done|]. rewrite iterativeRefine_fitted by done.
    destruct (Z.to_nat numIterations) as [|n]; [done|]. simpl.
    rewrite Hnext. simpl. by rewrite Hconv.
  - intros Hbudget. rewrite iterativeRefine_fitted by done.
    by replace (Z.to_nat numIterations) with 0%nat by lia.
Qed.

End MoreLoop.

(** * The invariant of the class and the percentage mode *)

Section Invariant.
Context (d : nat) {B R : Type} `{!HTensorBasis B} `{!Fitting B R} `{!NthElement}.
Implicit Types (st : @gsHFitting B R) (tolerance err_threshold : T).

Lemma consistent_fitAndMeasure st :
  configValid d st → (countRefines (calls st) ≤ countFits (calls st) + 1)%nat →
  consistent d (fitAndMeasure st).
Proof.
  intros Hcfg Hcount.
  destruct (fitAndMeasure_members st) as (Hb & Hr & He & Hre & Hla & Hex & Hpa).
  unfold consistent, configValid, getRefPercentage, get_extension.
  rewrite Hre, Hex, Hr, Hb, Hla.
  rewrite fitAndMeasure_calls, countFits_app, countRefines_app. simpl.
  split; [done|]. split; [lia|]. split; [lia|]. split; [done|exact He].
Qed.

Lemma consistent_nextIteration tolerance err_threshold st (b : bool) st' :
  consistent d st →
  nextIteration d tolerance err_threshold st = Some (b, st') →
  consistent d st'.
Proof.
  intros (Hcfg & Hcount & Hres) Hnext.
  destruct (nextIteration_step d _ _ _ _ _ Hnext)
    as ((Href & Hlam & Hext & Hpar) & cs & Hcs & Hrf & Hf1 & _ & _ & Hbas & Hsame & Hfit).
  unfold consistent, configValid, getRefPercentage, get_extension.
  rewrite Href, Hext.
  rewrite Hcs, countFits_app, countRefines_app.
  split; [done|]. split; [lia|].
  destruct (decide (countFits cs = 0%nat)) as [Hzero|Hone].
  - destruct (Hsame Hzero) as (Hr & He & Hmax & Hmin).
    rewrite Hr, He, Hmax, Hmin, Hlam, Hbas by lia.
    destruct (m_result st); [|by rewrite Hzero, Nat.add_0_r].
    destruct Hres as (? & ? & ?). split; [lia|done].
  - destruct Hfit as [Hr He]; [lia|]. rewrite Hr.
    split; [lia|]. split; [done|exact He].
Qed.

Lemma consistent_refineLoop (n : nat) tolerance err_threshold st st' :
  consistent d st →
  refineLoop d n tolerance err_threshold st = Some st' →
  consistent d st'.
Proof.
  revert st. induction n as [|n IH]; intros st Hst; simpl.
  - by intros [= <-].
  - destruct (nextIteration d tolerance err_threshold st) as [[b st1]|] eqn:Hnext;
      [|done].
    simpl. pose proof (consistent_nextIteration _ _ _ _ _ Hst Hnext) as Hst1.
    destruct (Tleb (m_max_error st1) tolerance); [by intros [= <-]|].
    destruct (negb b); [by intros [= <-]|].
    by apply IH.
Qed.

Lemma consistent_iterativeRefine (numIterations : Z) tolerance err_threshold st st' :
  consistent d st →
  iterativeRefine d numIterations tolerance err_threshold st = Some st' →
  consistent d st'.
Proof.
  intros Hst. unfold iterativeRefine. cbv zeta.
  destruct (decide _); [|by apply consistent_refineLoop].
  apply consistent_refineLoop.
  destruct Hst as (Hcfg & Hcount & _). apply consistent_fitAndMeasure; [done|lia].
Qed.

(** X15.  Every object a caller can get (built by the constructor with its
    assertions on, then passed through [setRefPercentage], [nextIteration]
    and [iterativeRefine]) has a valid configuration, no refinement without a
    later fit, and either no fit and no error field or the result and the
    errors of a fit over its current basis.  When the solver never leaves
    the error field empty, this is the invariant written in the source: the
    error field is empty exactly when there was no fit. *)
Theorem reachable_consistent st :
  reachable d st →
  consistent d st ∧
  ((∀ r : R, (computeErrors r).1.1 ≠ []) →
   (m_pointErrors st = [] ↔ countFits (calls st) = 0%nat)).
Proof.
  intros Hreach.
  assert (consistent d st) as Hst.
  { induction Hreach as [pv basis refin ext lambda st Hu Hc
                        |p st st' _ IH Hset
                        |tol thr st b st' _ IH Hnext
                        |n tol thr st st' _ IH Hrun].
    - unfold constructAsserted in Hc.
      destruct (Tleb T0 refin) eqn:H0; [|done].
      destruct (Tleb refin (Fin (Q2Qc 1))) eqn:H1; [|done]. simpl in Hc.
      destruct (decide (length ext = d)) as [Hlen|]; [|done].
      injection Hc as <-. by repeat split.
    - unfold setRefPercentage in Hset.
      destruct (Tleb T0 p) eqn:H0; [|done].
      destruct (Tleb p (Fin (Q2Qc 1))) eqn:H1; [|done]. simpl in Hset.
      injection Hset as <-.
      destruct IH as ((_ & _ & Hlen & Hu) & Hcount & Hres).
      by repeat split.
    - by eapply consistent_nextIteration.
    - by eapply consistent_iterativeRefine. }
  split; [done|]. intros Hfull.
  destruct Hst as (_ & _ & Hres).
  destruct (m_result st) as [r|].
  - destruct Hres as (Hpos & _ & He). specialize (Hfull r).
    rewrite <- He in Hfull. simpl in Hfull. split; [done|lia].
  - destruct Hres as [-> ->]. done.
Qed.

Lemma setRefineThreshold_zero_undefined (errors : list T) :
  setRefineThreshold T0 errors = None.
Proof.
  apply (setRefineThreshold_past_end T0 errors (length errors)); [|done].
  apply rankIndex_zero.
Qed.

Lemma setRefineThreshold_elem_of (p : Qc) (errors : list T) :
  (1 # 2 ^ 54 < p)%Q → (p <= 1)%Q → errors ≠ [] →
  ∃ t, setRefineThreshold (Fin p) errors = Some t ∧ t ∈ errors.
Proof.
  intros H0 H1 Hne.
  destruct (setRefineThreshold_rank p errors H0 H1 Hne)
    as (i & t & _ & _ & Hsel & Hrank).
  exists t. split; [done|].
  rewrite <- (merge_sort_Permutation Tle errors).
  by eapply list_elem_of_lookup_2.
Qed.

(** X16.  With the refinement percentage in (2^-54, 1] and the threshold left to
    it ([err_threshold < 0]), [nextIteration] on an object whose maximum
    error exceeds the tolerance always finds a box: it refines, fits again
    and returns [true]; the stop for want of boxes cannot occur. *)
Theorem nextIteration_percentage_refines (p : Qc) tolerance err_threshold st :
  m_pointErrors st ≠ [] →
  m_ref st = Fin p → (1 # 2 ^ 54 < p)%Q → (p <= 1)%Q →
  Tleb T0 err_threshold = false →
  Tltb tolerance (m_max_error st) = true →
  ∃ t boxes st',
    nextIteration d tolerance err_threshold st = Some (true, st') ∧
    setRefineThreshold (Fin p) (m_pointErrors st) = Some t ∧
    boxes = stBoxes d st (m_pointErrors st) t ∧ boxes ≠ [] ∧
    m_basis st' = refineElements (m_basis st) boxes ∧
    callsSince st st'
    = [CallSetRefineThreshold; CallGetBoxes t; CallRefineElements boxes;
       CallCompute (m_lambda st); CallComputeErrors].
Proof.
  intros Hne Href H0 H1 Hthr Hlt.
  destruct (setRefineThreshold_elem_of p (m_pointErrors st) H0 H1 Hne)
    as (t & Hsel & Hin).
  set (boxes := stBoxes d st (m_pointErrors st) t).
  assert (boxes ≠ []) as Hboxes.
  { intros Hnil. unfold boxes, stBoxes in Hnil.
    pose proof (proj1 (getBoxes_nil_iff d _ _ _ _ _) Hnil) as Hnone.
    apply (Hnone t Hin), Tle_refl. }
  exists t, boxes.
  exists (fitAndMeasure (doRefine boxes
            (logCall (CallGetBoxes t) (logCall CallSetRefineThreshold st)))).
  unfold nextIteration.
  rewrite decide_True by (destruct (m_pointErrors st); [done|simpl; lia]).
  rewrite Hlt. unfold selectThreshold. rewrite Hthr, Href, Hsel. simpl.
  change (stBoxes d (logCall CallSetRefineThreshold st) (m_pointErrors st) t)
    with boxes.
  rewrite decide_False by (destruct boxes; [done|simpl; lia]).
  split; [done|]. split; [done|]. split; [done|]. split; [done|].
  destruct (fitAndMeasure_members
              (doRefine boxes
                 (logCall (CallGetBoxes t) (logCall CallSetRefineThreshold st))))
    as (Hb & _).
  split; [by rewrite Hb|].
  apply callsSince_app. rewrite fitAndMeasure_calls. simpl.
  by rewrite <- !app_assoc.
Qed.

(** X17.  With a refinement percentage of 0 and the threshold left to it,
    [nextIteration] reaches the read past the end of the error field as soon
    as the maximum error exceeds the tolerance, and so does [iterativeRefine]
    with a positive budget. *)
Theorem iterativeRefine_zero_percentage (numIterations : Z) tolerance err_threshold st :
  m_pointErrors st ≠ [] →
  m_ref st = T0 →
  Tleb T0 err_threshold = false →
  Tltb tolerance (m_max_error st) = true →
  nextIteration d tolerance err_threshold st = None ∧
  (0 < numIterations →
   iterativeRefine d numIterations tolerance err_threshold st = None).
Proof.
  intros Hne Href Hthr Hlt.
  assert (nextIteration d tolerance err_threshold st = None) as Hnext.
  { unfold nextIteration.
    rewrite decide_True by (destruct (m_pointErrors st); [done|simpl; lia]).
    rewrite Hlt. unfold selectThreshold.
    by rewrite Hthr, Href, setRefineThreshold_zero_undefined. }
  split; [done|]. intros Hpos.
  rewrite iterativeRefine_fitted by done.
  destruct (Z.to_nat numIterations) as [|n] eqn:Hn; [lia|]. simpl.
  by rewrite Hnext.
Qed.

End Invariant.

(** * Closed examples on the concrete setting *)

Import Toy.

Ltac flagged_cases Hin :=
  vm_compute in Hin;
  repeat (apply elem_of_cons in Hin as [->|Hin]);
  [..|by apply elem_of_nil in Hin].

(** The samples at 5/8 and 7/8 lie in distinct finest-level cells (2 and 3)
    whose boxes on level 1 are the same; both boxes are emitted. *)
Example distinct_cells_same_box :
  cellOf 1 (mkToy 2 0) toyParams <$> flagged toyErrors (frac 1 2) = [[0]; [2]; [3]] ∧
  boxesOf 1 (getBoxes 1 (mkToy 2 0) [0] toyParams toyErrors (frac 1 2))
  = [[1; 0; 1]; [1; 1; 2]; [1; 1; 2]].
Proof. by vm_compute. Qed.

(** Two samples in one finest-level cell give one box. *)
Example same_cell_one_box :
  boxesOf 1 (getBoxes 1 (mkToy 2 0) [0] (λ _ _, frac 1 8) toyErrors (frac 1 2))
  = [[1; 0; 1]].
Proof. by vm_compute. Qed.

(** C3 on four samples in one direction. *)
Lemma getBoxes_one_box_per_cell_witness :
  (0 < 1)%nat ∧
  boxesOf 1 (getBoxes 1 (mkToy 2 0) [0] toyParams toyErrors (frac 1 2))
  = makeBox 1 (mkToy 2 0) [0]
      <$> keepNew [] (cellOf 1 (mkToy 2 0) toyParams <$> flagged toyErrors (frac 1 2)).
Proof.
  split; [lia|].
  exact (proj1 (proj2 (getBoxes_one_box_per_cell 1 (mkToy 2 0) [0] toyParams
                         toyErrors (frac 1 2) ltac:(lia)))).
Defined.

(** C6 on the sample at 5/8, met after the cell of the sample at 1/8. *)
Lemma appendBox_level_witness :
  isCellAlreadyInserted (locate 1 (mkToy 2 0) (toyParams 2)) [0] = false ∧
  ∃ bounds,
    (appendBox 1 (mkToy 2 0) [0] [1; 0; 1] [0] (toyParams 2)).1
    = [1; 0; 1] ++ (0 + 1) :: bounds ∧
    length bounds = (2 * 1)%nat ∧
    (appendBox 1 (mkToy 2 0) [0] [1; 0; 1] [0] (toyParams 2)).2
    = [0] ++ locate 1 (mkToy 2 0) (toyParams 2).
Proof.
  split; [by vm_compute|].
  pose proof (appendBox_level 1 (mkToy 2 0) [0] [1; 0; 1] [0] (toyParams 2)) as H.
  cbv zeta in H.
  specialize (H ltac:(by vm_compute)).
  specialize (H ltac:(change (-1 <= 0 < 2 ^ 31 - 1); lia)).
  exact H.
Defined.

(** C7 on the finest-level index 3 of level 2: coarsened to level 1 it is 1,
    refined to level 3 it is 6. *)
Lemma makeBox_reprojection_witness :
  makeBox 1 (mkToy 2 0) [0] [3] !! 1%nat = Some 1 ∧
  makeBox 1 (mkToy 2 0) [0] [3] !! 2%nat = Some 2 ∧
  makeBox 1 (mkToy 2 2) [0] [3] !! 1%nat = Some 6 ∧
  makeBox 1 (mkToy 2 2) [0] [3] !! 2%nat = Some 7.
Proof.
  pose proof (makeBox_reprojection 1 (mkToy 2 0) [0] [3] 0 3
                ltac:(lia) ltac:(reflexivity)
                ltac:(change (0 <= 1 < 2 ^ 31); lia)
                ltac:(change (0 <= 2 < 2 ^ 31); lia)
                ltac:(change (-32 < 1 - 2 < 32); lia))
    as (Hlow & Hupp & _).
  pose proof (makeBox_reprojection 1 (mkToy 2 2) [0] [3] 0 3
                ltac:(lia) ltac:(reflexivity)
                ltac:(change (0 <= 3 < 2 ^ 31); lia)
                ltac:(change (0 <= 2 < 2 ^ 31); lia)
                ltac:(change (-32 < 3 - 2 < 32); lia))
    as (Hlow' & Hupp' & _).
  split; [exact Hlow|]. split; [exact Hupp|]. split; [exact Hlow'|exact Hupp'].
Defined.

(** C4 as stated fails.  One sample in cell 0 of a level with three break
    points and a margin of [2^32 - 1]: [0 + margin + 1] wraps to 0, which is
    below [numBreaks - 1 = 2], so the box is [1; 0; 0] and its upper bound is
    0, not [min(2, 2^32) = 2]. *)
Example wrapped_margin_box :
  boxesOf 1 (getBoxes 1 (mkToy 2 0) [4294967295] toyParams [frac 1 2] (frac 1 2))
  = [[1; 0; 0]] ∧
  numBreaks (mkToy 2 0) 1 0 - 1 = 2.
Proof. by vm_compute. Qed.





(** From here on [std::nth_element] is the full sort. *)
#[local] Existing Instance sortNthElement.

(** C10 on the object right after construction. *)
Lemma nextIteration_first_fit_witness :
  m_pointErrors toyObject = [] ∧
  nextIteration 1 (frac 1 100) (frac (-1) 1) toyObject
  = Some (true, fitAndMeasure toyObject) ∧
  callsSince toyObject (fitAndMeasure toyObject)
  = [CallCompute (m_lambda toyObject); CallComputeErrors].
Proof.
  split; [reflexivity|].
  pose proof (nextIteration_first_fit 1 (frac 1 100) (frac (-1) 1) toyObject eq_refl)
    as (Hrun & Hcalls & _).
  split; [exact Hrun|exact Hcalls].
Defined.

(** C2 on the object after its first fit, with the threshold taken from the
    refinement percentage: one half, where the call refines, and zero, where
    it has no result. *)
Lemma nextIteration_stop_or_step_witness :
  m_pointErrors toyFitted ≠ [] ∧
  (∃ (b : bool) st',
     nextIteration 1 (frac 1 100) (frac (-1) 1) toyFitted = Some (b, st')) ∧
  m_pointErrors toyZero ≠ [] ∧
  nextIteration 1 (frac 1 100) (frac (-1) 1) toyZero = None.
Proof.
  assert (m_pointErrors toyFitted ≠ []) as Hne by (by vm_compute).
  assert (m_pointErrors toyZero ≠ []) as Hne0 by (by vm_compute).
  assert (is_Some (selectThreshold (frac (-1) 1) toyFitted)) as Hsel.
  { vm_compute. by eexists. }
  assert (¬ Tle (m_max_error toyZero) (frac 1 100)) as Hopen by (by vm_compute).
  assert (selectThreshold (frac (-1) 1) toyZero = None) as Hnone by (by vm_compute).
  pose proof (nextIteration_stop_or_step 1 (frac 1 100) (frac (-1) 1) toyFitted Hne)
    as (Hstep & _ & _).
  pose proof (nextIteration_stop_or_step 1 (frac 1 100) (frac (-1) 1) toyZero Hne0)
    as (_ & Hread & _).
  split; [exact Hne|]. split.
  { destruct (Hstep (or_intror Hsel)) as (b & st' & Hrun & _). by exists b, st'. }
  split; [exact Hne0|]. exact (Hread Hopen Hnone).
Defined.

(** A percentage of 2^-60 passes the assertions of the constructor, and the
    first step after the first fit ends in the read past the end. *)
Example nextIteration_tiny_percentage_example :
  is_Some (constructAsserted (R := Z) 1 toyParams (mkToy 2 0) tiny [0] T0) ∧
  nextIteration 1 (frac 1 100) (frac (-1) 1)
    (fitAndMeasure (construct toyParams (mkToy 2 0) tiny [0] T0)) = None.
Proof. split; [vm_compute; by eexists|by vm_compute]. Qed.

(** One step on the fitted object: threshold, boxes, refinement, fit. *)
Example nextIteration_step_example :
  (λ r, (r.1, callsSince toyFitted r.2, m_basis r.2))
    <$> nextIteration 1 (frac 1 100) (frac (-1) 1) toyFitted
  = Some (true,
          [CallSetRefineThreshold; CallGetBoxes (frac 1 1);
           CallRefineElements [1; 0; 1]; CallCompute T0; CallComputeErrors],
          mkToy 2 1).
Proof. by vm_compute. Qed.

(** A threshold above every error: no box, [false], nothing touched. *)
Example nextIteration_no_box_example :
  (λ r, (r.1, callsSince toyFitted r.2, m_basis r.2))
    <$> nextIteration 1 (frac 1 100) (frac 2 1) toyFitted
  = Some (false, [CallGetBoxes (frac 2 1)], mkToy 2 0).
Proof. by vm_compute. Qed.

(** Over a solver whose error field stays empty (no sample) the first round
    of the loop fits again: two fits. *)
Example iterativeRefine_no_sample_example :
  (λ st', countFits (calls st'))
    <$> @iterativeRefine 1 toyBasis Z _ emptyFitting _ 3 PInf (frac (-1) 1) toyObject
  = Some 2%nat.
Proof. by vm_compute. Qed.


(** On an object that already has an error field the call makes no fit. *)
Example iterativeRefine_fitted_example :
  iterativeRefine 1 3 PInf (frac (-1) 1) toyFitted = Some toyFitted.
Proof.
  rewrite iterativeRefine_fitted by (by vm_compute).
  by rewrite refineLoop_infinity by (by vm_compute).
Qed.


(** The threshold for half, all and none of the samples over the errors
    3, 1, 2: the median, the minimum, and no value at all. *)
Example setRefineThreshold_examples :
  setRefineThreshold (frac 1 2) [frac 3 1; frac 1 1; frac 2 1] = Some (frac 2 1) ∧
  setRefineThreshold (frac 1 1) [frac 3 1; frac 1 1; frac 2 1] = Some (frac 1 1) ∧
  setRefineThreshold (frac 0 1) [frac 3 1; frac 1 1; frac 2 1] = None.
Proof. by vm_compute. Qed.

(** The rank in [double] for ten samples.  A percentage of 0.1 gives rank
    9, where the exact product [10 * (1 - 0.1)] has the floor 8; a percentage
    of 2^-60 is lost in [1.0 - m_ref] and gives the size, 10; one half gives
    5.  The double nearest to 1/10 is [3602879701896397 / 2^55]. *)
Example rankIndex_double_examples :
  rankIndex tenth 10 = Some 9%nat ∧
  rankOf (Q2Qc (3602879701896397 # 36028797018963968)) 10 = 8%nat ∧
  rankIndex tiny 10 = Some 10%nat ∧
  rankIndex (frac 1 2) 10 = Some 5%nat ∧
  roundT (1 # 10) = (3602879701896397 # 36028797018963968)%Q ∧
  roundT (1 - (3602879701896397 # 36028797018963968))
  = (8106479329266893 # 9007199254740992)%Q.
Proof. by vm_compute. Qed.

(** With a percentage of 0.1 the threshold over ten errors is the largest
    one, and one sample reaches it. *)
Example setRefineThreshold_tenth_example :
  let errors := (λ n, frac n 1) <$> [3; 1; 4; 1; 5; 9; 2; 6; 5; 8] in
  setRefineThreshold tenth errors = Some (frac 9 1) ∧
  flagged errors (frac 9 1) = [5%nat].
Proof. by vm_compute. Qed.

(** X1 on the median of three errors. *)
Lemma setRefineThreshold_selects_rank_witness :
  ∃ i t, rankIndex (frac 1 2) 3 = Some i ∧ (i < 3)%nat ∧
         setRefineThreshold (frac 1 2) [frac 3 1; frac 1 1; frac 2 1] = Some t ∧
         merge_sort Tle [frac 3 1; frac 1 1; frac 2 1] !! i = Some t.
Proof.
  pose proof (setRefineThreshold_selects_rank (Q2Qc (1 # 2))
                [frac 3 1; frac 1 1; frac 2 1]) as H.
  specialize (H ltac:(by vm_compute) ltac:(by vm_compute) ltac:(discriminate)).
  destruct H as (_ & Hin & _).
  assert (1 # 2 ^ 54 < Q2Qc (1 # 2))%Q as Hp by (by vm_compute).
  exact (Hin Hp).
Defined.

(** ** The further properties on the concrete setting *)

(** X3 on the cells 0 and 2 of one direction. *)
Lemma isCellAlreadyInserted_member_witness :
  (isCellAlreadyInserted [2] (foldl append [] [[0]; [2]]) = true ↔ [2] ∈ [[0]; [2]]) ∧
  isCellAlreadyInserted [2] (append (foldl append [] [[0]; [2]]) [2]) = true ∧
  isCellAlreadyInserted [2] [] = false.
Proof.
  pose proof (isCellAlreadyInserted_member [2] [[0]; [2]]) as H.
  specialize (H ltac:(simpl; lia) ltac:(by repeat constructor)).
  exact H.
Defined.

(** X6 on the four samples: the box met at threshold 1/2 is met at 1/4. *)
Lemma getBoxes_threshold_antitone_witness :
  [1; 0; 1] ∈ boxesOf 1 (getBoxes 1 (mkToy 2 0) [0] toyParams toyErrors (frac 1 4)).
Proof.
  pose proof (getBoxes_threshold_antitone 1 (mkToy 2 0) [0] toyParams toyErrors
                (frac 1 2) (frac 1 4) [1; 0; 1]) as H.
  specialize (H ltac:(by vm_compute)).
  specialize (H ltac:(vm_compute; apply list_elem_of_here)).
  exact H.
Defined.

(** X7 on the margin [2^32 - 1], where the sum wraps around. *)
Lemma getBoxes_bounds_never_outside_witness :
  ∃ index, index ∈ flagged [frac 1 2] (frac 1 2) ∧
    let c := cellOf 1 (mkToy 2 0) toyParams index in
    ∀ dim, (dim < 1)%nat →
      ∃ low upp,
        [1; 0; 0] !! (1 + dim)%nat = Some low ∧
        [1; 0; 0] !! (1 + 1 + dim)%nat = Some upp ∧
        0 <= low ∧ low <= indexAtLevel (mkToy 2 0) c dim ∧
        upp <= (numBreaks (mkToy 2 0) (cellLevel (mkToy 2 0) c) dim - 1) mod 2 ^ 32.
Proof.
  pose proof (getBoxes_bounds_never_outside 1 (mkToy 2 0) [4294967295] toyParams
                [frac 1 2] (frac 1 2) [1; 0; 0]) as H.
  specialize (H ltac:(repeat constructor; unfold is_unsigned; lia)).
  specialize (H ltac:(vm_compute; apply list_elem_of_here)).
  exact H.
Defined.

(** X8 on the four samples with a margin of one cell. *)
Lemma getBoxes_box_covers_cell_witness :
  ∃ index, index ∈ flagged toyErrors (frac 1 2) ∧
    let c := cellOf 1 (mkToy 2 0) toyParams index in
    ∀ dim, (dim < 1)%nat →
      ∃ low upp,
        [1; 0; 2] !! (1 + dim)%nat = Some low ∧
        [1; 0; 2] !! (1 + 1 + dim)%nat = Some upp ∧
        low <= indexAtLevel (mkToy 2 0) c dim ∧
        indexAtLevel (mkToy 2 0) c dim < upp.
Proof.
  pose proof (getBoxes_box_covers_cell 1 (mkToy 2 0) [1] toyParams toyErrors
                (frac 1 2) [1; 0; 2]) as H.
  specialize (H ltac:(repeat constructor; unfold is_unsigned; lia)).
  assert (∀ index dim, index ∈ flagged toyErrors (frac 1 2) → (dim < 1)%nat →
            let c := cellOf 1 (mkToy 2 0) toyParams index in
            indexAtLevel (mkToy 2 0) c dim + default 0 ([1] !! dim) + 1 < 2 ^ 32 ∧
            indexAtLevel (mkToy 2 0) c dim < maxUpper (mkToy 2 0) c dim) as Hfit.
  { intros index dim Hin Hdim.
    assert (dim = 0%nat) as -> by lia.
    flagged_cases Hin; by vm_compute. }
  specialize (H Hfit).
  specialize (H ltac:(vm_compute; apply list_elem_of_here)).
  exact H.
Defined.

(** X9 on the four samples. *)
Lemma getBoxes_zero_threshold_witness :
  flagged toyErrors T0 = seq 0 (length toyErrors) ∧
  ∀ index, (index < length toyErrors)%nat →
    makeBox 1 (mkToy 2 0) [0] (cellOf 1 (mkToy 2 0) toyParams index)
    ∈ boxesOf 1 (getBoxes 1 (mkToy 2 0) [0] toyParams toyErrors T0).
Proof.
  pose proof (getBoxes_zero_threshold 1 (mkToy 2 0) [0] toyParams toyErrors) as H.
  assert (∀ e, e ∈ toyErrors → Tleb T0 e = true) as Hpos.
  { intros e He. unfold toyErrors in He.
    repeat (apply elem_of_cons in He as [->|He]); try by vm_compute.
    by apply elem_of_nil in He. }
  exact (H Hpos).
Defined.

(** X10 on half of three errors. *)
Lemma setRefineThreshold_flags_enough_witness :
  ∃ i t, rankIndex (frac 1 2) 3 = Some i ∧
       setRefineThreshold (frac 1 2) [frac 3 1; frac 1 1; frac 2 1] = Some t ∧
       t ∈ [frac 3 1; frac 1 1; frac 2 1] ∧
       (3 - i ≤ length (flagged [frac 3 1; frac 1 1; frac 2 1] t))%nat.
Proof.
  pose proof (setRefineThreshold_flags_enough (Q2Qc (1 # 2))
                [frac 3 1; frac 1 1; frac 2 1]) as H.
  specialize (H ltac:(by vm_compute) ltac:(by vm_compute) ltac:(discriminate)).
  destruct H as (i & t & Hi & Hsel & Hin & Hcount & _).
  exists i, t. split; [exact Hi|]. split; [exact Hsel|]. split; [exact Hin|exact Hcount].
Defined.

(** Three rounds from the object right after construction. *)
Lemma toy_three_rounds :
  is_Some (iterativeRefine 1 3 (frac 1 100) (frac (-1) 1) toyObject).
Proof. vm_compute. by eexists. Qed.

(** X11 on three rounds from the object right after construction. *)
Lemma iterativeRefine_budget_witness :
  ∃ st', iterativeRefine 1 3 (frac 1 100) (frac (-1) 1) toyObject = Some st' ∧
    (countRefines (callsSince toyObject st') ≤ 3)%nat ∧
    (countFits (callsSince toyObject st') ≤ 3 + 1)%nat.
Proof.
  destruct toy_three_rounds as [st' Hrun]. exists st'.
  pose proof (iterativeRefine_budget 1 3 (frac 1 100) (frac (-1) 1) toyObject st' Hrun)
    as H.
  cbv zeta in H. destruct H as (Hr & Hf & _).
  split; [exact Hrun|]. split; [exact Hr|exact Hf].
Defined.

(** X12 on the same run. *)
Lemma iterativeRefine_frame_witness :
  ∃ st', iterativeRefine 1 3 (frac 1 100) (frac (-1) 1) toyObject = Some st' ∧
    sameConfig toyObject st' ∧
    Forall (wholeBoxes 1) (callsSince toyObject st').
Proof.
  destruct toy_three_rounds as [st' Hrun]. exists st'.
  pose proof (iterativeRefine_frame 1 3 (frac 1 100) (frac (-1) 1) toyObject st' Hrun)
    as (Hcfg & _ & Hwhole & _).
  split; [exact Hrun|]. split; [exact Hcfg|exact Hwhole].
Defined.

(** X13 with the explicit threshold 1/2. *)
Lemma iterativeRefine_returns_witness :
  (∃ st', iterativeRefine 1 3 (frac 1 100) (frac 1 2) toyFitted = Some st') ∧
  (∃ (b : bool) st', nextIteration 1 (frac 1 100) (frac 1 2) toyFitted = Some (b, st')).
Proof.
  assert (Tleb T0 (frac 1 2) = true) as Hthr by (by vm_compute).
  pose proof (iterativeRefine_returns 1 3 (frac 1 100) (frac 1 2) toyFitted) as H.
  exact (H (or_introl Hthr)).
Defined.

(** X14 on the fitted object, whose maximum error is 1. *)
Lemma iterativeRefine_nothing_to_do_witness :
  nextIteration 1 (frac 1 1) (frac (-1) 1) toyFitted = Some (false, toyFitted) ∧
  iterativeRefine 1 3 (frac 1 1) (frac (-1) 1) toyFitted = Some toyFitted ∧
  iterativeRefine 1 0 (frac 1 100) (frac (-1) 1) toyFitted = Some toyFitted.
Proof.
  pose proof (iterativeRefine_nothing_to_do 1 3 (frac 1 1) (frac (-1) 1) toyFitted)
    as H.
  specialize (H ltac:(by vm_compute)). destruct H as (Hdone & _).
  destruct (Hdone ltac:(by vm_compute)) as (Hnext & Hrun).
  pose proof (iterativeRefine_nothing_to_do 1 0 (frac 1 100) (frac (-1) 1) toyFitted)
    as H.
  specialize (H ltac:(by vm_compute)). destruct H as (_ & Hzero).
  split; [exact Hnext|]. split; [exact Hrun|]. apply Hzero. lia.
Defined.

(** X15 on the object after construction and a first step. *)
Lemma reachable_consistent_witness :
  reachable 1 toyFitted ∧ consistent 1 toyFitted.
Proof.
  assert (reachable 1 toyObject) as Hobj.
  { apply (reach_construct 1 toyParams (mkToy 2 0) (frac 1 2) [0] T0).
    - repeat constructor; unfold is_unsigned; lia.
    - by vm_compute. }
  assert (reachable 1 toyFitted) as Hfit.
  { apply (reach_nextIteration 1 (frac 1 100) (frac (-1) 1) toyObject true).
    - exact Hobj.
    - by vm_compute. }
  split; [exact Hfit|].
  exact (proj1 (reachable_consistent 1 toyFitted Hfit)).
Defined.

(** X16 on the fitted object with half of the samples. *)
Lemma nextIteration_percentage_refines_witness :
  ∃ st', nextIteration 1 (frac 1 100) (frac (-1) 1) toyFitted = Some (true, st').
Proof.
  pose proof (nextIteration_percentage_refines 1 (Q2Qc (1 # 2)) (frac 1 100)
                (frac (-1) 1) toyFitted) as H.
  specialize (H ltac:(by vm_compute) ltac:(by vm_compute) ltac:(by vm_compute)
                ltac:(by vm_compute) ltac:(by vm_compute) ltac:(by vm_compute)).
  destruct H as (t & boxes & st' & Hrun & _).
  by exists st'.
Defined.

(** X17 on an object built with a percentage of 0, after its first fit. *)
Lemma iterativeRefine_zero_percentage_witness :
  nextIteration 1 (frac 1 100) (frac (-1) 1)
    (fitAndMeasure (construct toyParams (mkToy 2 0) T0 [0] T0)) = None ∧
  iterativeRefine 1 3 (frac 1 100) (frac (-1) 1)
    (fitAndMeasure (construct toyParams (mkToy 2 0) T0 [0] T0)) = None.
Proof.
  pose proof (iterativeRefine_zero_percentage 1 3 (frac 1 100) (frac (-1) 1)
                (fitAndMeasure (construct toyParams (mkToy 2 0) T0 [0] T0))) as H.
  specialize (H ltac:(by vm_compute) ltac:(by vm_compute) ltac:(by vm_compute)
                ltac:(by vm_compute)).
  destruct H as (Hnext & Hrun).
  split; [exact Hnext|]. apply Hrun. lia.
Defined.
